(** * Row-level authorization wrappers and the batch "update each" resolver

    A shallow embedding of

    - [src/wrappers/auth.ts]: the seven resolver wrappers
      ([wrapCreateAuth], [authMutationByIdsEach], [wrapMutationAuth],
      [wrapMutationWithFilterAuth], [authQueryWithFilterResolver],
      [authQueryByIdsResolver], [authQueryOneResolver]), the policy check
      [validateAuthObject] and the four permission predicates;
    - [core]: [isValidJwtPayload] and [isArrayOfStrings];
    - [src/resolvers/updateByIdEach.ts]: the [resolve] function of the
      "update each" resolver.

    JavaScript values are a small dynamic type; objects used as maps are
    finite maps from property names to values.  Asynchronous resolvers are
    state-passing functions over an arbitrary world [W] (the document store
    and whatever else a resolver can touch) that either return a value or
    reject with an exception. *)

From Stdlib Require Import ZArith.
From stdpp Require Import gmap strings list fin_maps.

Set Warnings "-register-all".

Local Open Scope string_scope.
Local Open Scope list_scope.

(** ** JavaScript values *)

Module JS.

(** Numbers are integers here: identifiers and counts are the only numbers
    the code inspects (there is no NaN and no fraction in the model). *)
Inductive value : Type :=
| VUndefined
| VNull
| VBool (b : bool)
| VNum (n : Z)
| VStr (s : string)
| VArr (items : list value)
| VObj (fields : gmap string value).

(** What [throw] carries: [new Error(message)] raised by the code, or by a
    collaborator, and the [TypeError] the runtime raises on a property access
    through [null]/[undefined], a call of a non-function, an iteration over a
    non-iterable or (modules are strict code) a write to a primitive. *)
Inductive exn : Type :=
| Error (message : string)
| TypeError.

(** [!!v] *)
Definition truthy (v : value) : bool :=
  match v with
  | VUndefined | VNull => false
  | VBool b => b
  | VNum n => negb (n =? 0)%Z
  | VStr s => negb (String.eqb s "")
  | VArr _ | VObj _ => true
  end.

(** [typeof v] *)
Definition typeof (v : value) : string :=
  match v with
  | VUndefined => "undefined"
  | VNull => "object"
  | VBool _ => "boolean"
  | VNum _ => "number"
  | VStr _ => "string"
  | VArr _ | VObj _ => "object"
  end.

(** [a === b].  Primitives compare by type and value.  Objects and arrays
    compare by reference: the two sides of every [===] in this code come from
    different places (a fetched record and the identity claim), so they are
    never the same reference. *)
Definition strict_eq (a b : value) : bool :=
  match a, b with
  | VUndefined, VUndefined => true
  | VNull, VNull => true
  | VBool x, VBool y => Bool.eqb x y
  | VNum x, VNum y => (x =? y)%Z
  | VStr x, VStr y => String.eqb x y
  | _, _ => false
  end.

Definition nullish (v : value) : bool :=
  match v with
  | VUndefined | VNull => true
  | _ => false
  end.

(** [v[k]] for a receiver that is not [null]/[undefined]: own data properties
    of objects, [length] of arrays and strings, [undefined] otherwise
    (inherited members and index keys are not modelled). *)
Definition prop (v : value) (k : string) : value :=
  match v with
  | VObj m => default VUndefined (m !! k)
  | VArr l => if String.eqb k "length" then VNum (Z.of_nat (length l)) else VUndefined
  | VStr s => if String.eqb k "length" then VNum (Z.of_nat (String.length s)) else VUndefined
  | _ => VUndefined
  end.

(** [v[k]] in a position where the receiver may be [null]/[undefined]. *)
Definition read (v : value) (k : string) : exn + value :=
  if nullish v then inl TypeError else inr (prop v k).

(** [v?.[k]] *)
Definition read_opt (v : value) (k : string) : value :=
  if nullish v then VUndefined else prop v k.

(** [o[k] = v], giving the updated object.  Only plain objects are written to
    by the code on well-typed requests; a write through [null]/[undefined] or
    to a primitive raises [TypeError], and a named property attached to an
    array is outside the model (it raises here as well). *)
Definition write (o : value) (k : string) (v : value) : exn + value :=
  match o with
  | VObj m => inr (VObj (<[k := v]> m))
  | _ => inl TypeError
  end.

(** The items a [for (const x of v)] visits. *)
Definition iterate (v : value) : exn + list value :=
  match v with
  | VArr l => inr l
  | VStr s => inr ((fun c => VStr (String c EmptyString)) <$> String.list_ascii_of_string s)
  | _ => inl TypeError
  end.

(** [Array.isArray(v)] *)
Definition isArray (v : value) : bool :=
  match v with
  | VArr _ => true
  | _ => false
  end.

(** The elements of an array. *)
Definition elements_of (v : value) : list value :=
  match v with
  | VArr items => items
  | _ => []
  end.

(** [Object.keys(v).length] for a [v] with [typeof v === 'object'];
    [Object.keys(null)] raises. *)
Definition keys_length (v : value) : exn + nat :=
  match v with
  | VObj m => inr (size m)
  | VArr l => inr (length l)
  | VStr s => inr (String.length s)
  | VUndefined | VNull => inl TypeError
  | _ => inr 0%nat
  end.

(** A computed key [[f]] where [f] may be [undefined]. *)
Definition property_key (f : option string) : string :=
  match f with
  | Some s => s
  | None => "undefined"
  end.

(** Sequencing of fallible pure steps. *)
Fixpoint traverse {A B : Type} (f : A -> exn + B) (l : list A) : exn + list B :=
  match l with
  | [] => inr []
  | x :: rest =>
      match f x with
      | inl e => inl e
      | inr y =>
          match traverse f rest with
          | inl e => inl e
          | inr ys => inr (y :: ys)
          end
      end
  end.

End JS.

Export JS.

(** ** The policy ([EntityAuthConfig]) and the identity claim ([JwtPayload]) *)

(** [userIdField?: string]: [None] is an absent (undefined) field. *)
Record EntityAuthConfig : Type := {
  readAll : list string;
  writeAll : list string;
  writeSelf : list string;
  readSelf : list string;
  userIdField : option string
}.

(** [!authConfig.userIdField]: undefined and the empty string are falsy. *)
Definition userIdField_falsy (authConfig : EntityAuthConfig) : bool :=
  match userIdField authConfig with
  | None => true
  | Some f => negb (truthy (VStr f))
  end.

(** The key [[authConfig.userIdField!]] of computed property accesses. *)
Definition ownerKey (authConfig : EntityAuthConfig) : string :=
  property_key (userIdField authConfig).

(** [value.every((item) => typeof item === "string")] on an array. *)
Definition isArrayOfStrings (v : value) : bool :=
  isArray v &&
  match v with
  | VArr items => forallb (fun item => String.eqb (typeof item) "string") items
  | _ => false
  end.

(** The claim is whatever the transport layer left in [context.user]. *)
Definition isValidJwtPayload (jwt : value) : bool :=
  if negb (truthy jwt) then false
  else truthy (prop jwt "id") && isArrayOfStrings (prop jwt "permissions").

(** lodash's [_.uniq] over [===] (SameValueZero differs on NaN only). *)
Fixpoint uniq (l : list value) : list value :=
  match l with
  | [] => []
  | x :: rest => x :: filter (fun y => strict_eq x y = false) (uniq rest)
  end.

(** [_.intersection(a, b)]: the unique values of [a] also found in [b];
    a first argument that is not an array counts as empty. *)
Definition intersection (a : value) (b : list string) : list value :=
  match a with
  | VArr xs => uniq (filter (fun x => existsb (strict_eq x) (VStr <$> b) = true) xs)
  | _ => []
  end.

(** The four predicates are called on claims that passed
    [isValidJwtPayload], so [jwt.permissions] cannot raise. *)
Definition checkIfCanReadAll (jwt : value) (authConfig : EntityAuthConfig) : bool :=
  let rolesIntersection := intersection (prop jwt "permissions") (readAll authConfig) in
  negb (length rolesIntersection =? 0)%nat.

Definition checkIfCanWriteAll (jwt : value) (authConfig : EntityAuthConfig) : bool :=
  let rolesIntersection := intersection (prop jwt "permissions") (writeAll authConfig) in
  negb (length rolesIntersection =? 0)%nat.

Definition checkIfCanReadSelf (jwt : value) (authConfig : EntityAuthConfig) : bool :=
  let rolesIntersection := intersection (prop jwt "permissions") (readSelf authConfig) in
  negb (length rolesIntersection =? 0)%nat.

Definition checkIfCanWriteSelf (jwt : value) (authConfig : EntityAuthConfig) : bool :=
  let rolesIntersection := intersection (prop jwt "permissions") (writeSelf authConfig) in
  negb (length rolesIntersection =? 0)%nat.

Definition isAuthConfigImpactful (authConfig : option EntityAuthConfig) : bool :=
  match authConfig with
  | None => false
  | Some _ => true
  end.

(** The messages of the errors the wrappers raise. *)
Definition msg_wrong_config : string :=
  "Wrong auth config provided for object. Provide userIdField or make readSelf and writeSelf properties empty".
Definition msg_token_required : string := "Access denied. Valid JWT token required".
Definition msg_cannot_create : string :=
  "Access denied. You don't have permission to create this entity.".
Definition msg_cannot_see : string :=
  "Access denied. You don't have permission to see this entity.".
Definition msg_denied : string := "Acces denied.".
Definition msg_wrong_data : string := "Wrong data type.".

(** Runs when a wrapper is built, not when a request is served. *)
Definition validateAuthObject (authConfig : EntityAuthConfig) : exn + unit :=
  if userIdField_falsy authConfig
     && (negb (length (readSelf authConfig) =? 0)%nat
         || negb (length (writeSelf authConfig) =? 0)%nat)
  then inl (Error msg_wrong_config)
  else inr tt.

(** ** Resolvers *)

(** [rp]: the parts of the resolve parameters the code looks at.  A
    [context] of [VUndefined] is a call made without one, as the wrappers'
    own pre-fetches are. *)
Record ResolveParams : Type := {
  args : value;
  projection : value;
  context : value
}.

Definition with_args (rp : ResolveParams) (a : value) : ResolveParams :=
  {| args := a; projection := projection rp; context := context rp |}.

Definition with_projection (rp : ResolveParams) (p : value) : ResolveParams :=
  {| args := args rp; projection := p; context := context rp |}.

(** [rp.args[k] = v].  The code changes [rp] in place and hands the same
    object on; here the changed parameters are the value handed on. *)
Definition set_arg (rp : ResolveParams) (k : string) (v : value) : exn + ResolveParams :=
  match write (args rp) k v with
  | inl e => inl e
  | inr a => inr (with_args rp a)
  end.

Section Resolvers.

Context {W : Type}.

(** An asynchronous computation: from the world before to a result or a
    rejection, and the world after. *)
Definition Async (A : Type) : Type := W -> (exn + A) * W.

Definition ret {A : Type} (a : A) : Async A := fun w => (inr a, w).

Definition throw {A : Type} (e : exn) : Async A := fun w => (inl e, w).

Definition bind {A B : Type} (c : Async A) (k : A -> Async B) : Async B :=
  fun w =>
    match c w with
    | (inl e, w') => (inl e, w')
    | (inr a, w') => k a w'
    end.

(** A synchronous step that may raise. *)
Definition lift {A : Type} (r : exn + A) : Async A :=
  match r with
  | inl e => throw e
  | inr a => ret a
  end.

(** [resolver.resolve] *)
Definition Resolver : Type := ResolveParams -> Async value.

(** [resolver.wrapResolve(f)]: a resolver whose [resolve] is [f] of the
    wrapped one's. *)
Definition wrapResolve (resolver : Resolver) (f : Resolver -> Resolver) : Resolver :=
  f resolver.

End Resolvers.

Arguments Async W A : clear implicits.
Arguments Resolver W : clear implicits.

Declare Scope async_scope.
Delimit Scope async_scope with async.
Notation "x <- c ;; k" := (bind c (fun x => k))
  (at level 100, c at next level, k at level 200, right associativity) : async_scope.
Local Open Scope async_scope.

(** ** The wrappers of [src/wrappers/auth.ts] *)

Definition ebind {A B : Type} (r : exn + A) (k : A -> exn + B) : exn + B :=
  match r with
  | inl e => inl e
  | inr a => k a
  end.

(** The loop [for (const obj of items) if (obj[key] === id) validCount++]. *)
Fixpoint count_owned (key : string) (id : value) (items : list value) (validCount : nat)
  : exn + nat :=
  match items with
  | [] => inr validCount
  | obj :: rest =>
      match read obj key with
      | inl e => inl e
      | inr owner =>
          count_owned key id rest (if strict_eq owner id then S validCount else validCount)
      end
  end.

(** [items.filter((item) => item[key] === id)] *)
Fixpoint filter_owned (key : string) (id : value) (items : list value) : exn + list value :=
  match items with
  | [] => inr []
  | item :: rest =>
      match read item key with
      | inl e => inl e
      | inr owner =>
          match filter_owned key id rest with
          | inl e => inl e
          | inr kept => inr (if strict_eq owner id then item :: kept else kept)
          end
      end
  end.

(** [a.map(f)] and [a.filter(f)] exist on arrays only. *)
Definition array_items (a : value) : exn + list value :=
  match a with
  | VArr items => inr items
  | _ => inl TypeError
  end.

(** The parameters of the wrappers' own pre-fetches:
    [{ args, projection: { [authConfig.userIdField!]: {} } }]. *)
Definition prefetch_params (authConfig : EntityAuthConfig) (a : value) : ResolveParams :=
  {| args := a;
     projection := VObj {[ ownerKey authConfig := VObj ∅ ]};
     context := VUndefined |}.

(** [rp.args.filter[key] = id], or [rp.args.filter = { [key]: id }] when the
    request has no filter. *)
Definition inject_owner_filter (authConfig : EntityAuthConfig) (id : value)
    (rp : ResolveParams) : exn + ResolveParams :=
  ebind (read (args rp) "filter") (fun filter =>
    if truthy filter then
      ebind (write filter (ownerKey authConfig) id) (fun filter' =>
        set_arg rp "filter" filter')
    else
      set_arg rp "filter" (VObj {[ ownerKey authConfig := id ]})).

(** [if (!rp.projection[key]) rp.projection[key] = {}] *)
Definition project_owner (authConfig : EntityAuthConfig) (rp : ResolveParams)
  : exn + ResolveParams :=
  ebind (read (projection rp) (ownerKey authConfig)) (fun p =>
    if negb (truthy p) then
      ebind (write (projection rp) (ownerKey authConfig) (VObj ∅)) (fun p' =>
        inr (with_projection rp p'))
    else inr rp).

Section Wrappers.

Context {W : Type}.

(** The function [wrapCreateAuth] installs with [wrapResolve]. *)
Definition createAuth (authConfig : EntityAuthConfig) (next : Resolver W) : Resolver W :=
  fun rp =>
    user <- lift (read (context rp) "user") ;;
    if negb (isValidJwtPayload user) then throw (Error msg_token_required) else
    if negb (checkIfCanWriteSelf user authConfig) && negb (checkIfCanWriteAll user authConfig)
    then throw (Error msg_cannot_create) else
    records <- lift (read (args rp) "records") ;;
    if truthy records then
      objs <- lift (iterate records) ;;
      stamped <- lift (traverse (fun obj => write obj (ownerKey authConfig) (prop user "id")) objs) ;;
      rp' <- lift (set_arg rp "records" (VArr stamped)) ;;
      next rp'
    else
      record <- lift (read (args rp) "record") ;;
      if truthy record then
        record' <- lift (write record (ownerKey authConfig) (prop user "id")) ;;
        rp' <- lift (set_arg rp "record" record') ;;
        next rp'
      else throw (Error msg_wrong_data).

Definition wrapCreateAuth (resolver : Resolver W) (authConfig : option EntityAuthConfig)
  : exn + Resolver W :=
  if negb (isAuthConfigImpactful authConfig) then inr resolver else
  match authConfig with
  | None => inr resolver
  | Some cfg =>
      ebind (validateAuthObject cfg) (fun _ =>
        inr (wrapResolve resolver (createAuth cfg)))
  end.

(** The function [authMutationByIdsEach] installs. *)
Definition mutationByIdsEach (authConfig : EntityAuthConfig) (findByIds : Resolver W)
    (next : Resolver W) : Resolver W :=
  fun rp =>
    user <- lift (read (context rp) "user") ;;
    if negb (isValidJwtPayload user) then throw (Error msg_token_required) else
    if checkIfCanWriteAll user authConfig then next rp else
    if negb (checkIfCanWriteSelf user authConfig) then throw (Error msg_cannot_see) else
    records <- lift (ebind (read (args rp) "records") array_items) ;;
    ids <- lift (traverse (fun record => read record "_id") records) ;;
    foundRecords <- findByIds (prefetch_params authConfig (VObj {[ "_ids" := VArr ids ]})) ;;
    found <- lift (array_items foundRecords) ;;
    owned <- lift (filter_owned (ownerKey authConfig) (prop user "id") found) ;;
    let authCount := length owned in
    if negb (authCount =? length found)%nat then throw (Error msg_denied) else
    next rp.

Definition authMutationByIdsEach (resolver : Resolver W) (authConfig : option EntityAuthConfig)
    (findByIds : Resolver W) : exn + Resolver W :=
  if negb (isAuthConfigImpactful authConfig) then inr resolver else
  match authConfig with
  | None => inr resolver
  | Some cfg =>
      ebind (validateAuthObject cfg) (fun _ =>
        inr (wrapResolve resolver (mutationByIdsEach cfg findByIds)))
  end.

(** The function [wrapMutationAuth] installs. *)
Definition mutationAuth (authConfig : EntityAuthConfig) (findById : Resolver W)
    (next : Resolver W) : Resolver W :=
  fun rp =>
    user <- lift (read (context rp) "user") ;;
    if negb (isValidJwtPayload user) then throw (Error msg_token_required) else
    if checkIfCanWriteAll user authConfig then next rp else
    if negb (checkIfCanWriteSelf user authConfig) then throw (Error msg_cannot_see) else
    foundData <- findById (prefetch_params authConfig (args rp)) ;;
    len <- lift (read foundData "length") ;;
    if negb (strict_eq len VUndefined) then
      objs <- lift (iterate foundData) ;;
      validCount <- lift (count_owned (ownerKey authConfig) (prop user "id") objs 0) ;;
      if negb (strict_eq (VNum (Z.of_nat validCount)) len) then throw (Error msg_denied) else
      next rp
    else
      if negb (strict_eq (prop foundData (ownerKey authConfig)) (prop user "id"))
      then throw (Error msg_denied) else
      next rp.

Definition wrapMutationAuth (resolver : Resolver W) (authConfig : option EntityAuthConfig)
    (findById : Resolver W) : exn + Resolver W :=
  if negb (isAuthConfigImpactful authConfig) then inr resolver else
  match authConfig with
  | None => inr resolver
  | Some cfg =>
      ebind (validateAuthObject cfg) (fun _ =>
        inr (wrapResolve resolver (mutationAuth cfg findById)))
  end.

(** The function [wrapMutationWithFilterAuth] installs ([findById] is not
    used by it). *)
Definition mutationWithFilterAuth (authConfig : EntityAuthConfig) (next : Resolver W)
  : Resolver W :=
  fun rp =>
    user <- lift (read (context rp) "user") ;;
    if negb (isValidJwtPayload user) then throw (Error msg_token_required) else
    if checkIfCanWriteAll user authConfig then next rp else
    if negb (checkIfCanWriteSelf user authConfig) then throw (Error msg_cannot_see) else
    rp' <- lift (inject_owner_filter authConfig (prop user "id") rp) ;;
    next rp'.

Definition wrapMutationWithFilterAuth (resolver : Resolver W)
    (authConfig : option EntityAuthConfig) (findById : Resolver W) : exn + Resolver W :=
  if negb (isAuthConfigImpactful authConfig) then inr resolver else
  match authConfig with
  | None => inr resolver
  | Some cfg =>
      ebind (validateAuthObject cfg) (fun _ =>
        inr (wrapResolve resolver (mutationWithFilterAuth cfg)))
  end.

(** The function [authQueryWithFilterResolver] installs. *)
Definition queryWithFilter (authConfig : EntityAuthConfig) (next : Resolver W) : Resolver W :=
  fun rp =>
    user <- lift (read (context rp) "user") ;;
    if negb (isValidJwtPayload user) then throw (Error msg_token_required) else
    if checkIfCanReadAll user authConfig then next rp else
    if negb (checkIfCanReadSelf user authConfig) then throw (Error msg_cannot_see) else
    rp' <- lift (inject_owner_filter authConfig (prop user "id") rp) ;;
    next rp'.

Definition authQueryWithFilterResolver (resolver : Resolver W)
    (authConfig : option EntityAuthConfig) : exn + Resolver W :=
  if negb (isAuthConfigImpactful authConfig) then inr resolver else
  match authConfig with
  | None => inr resolver
  | Some cfg =>
      ebind (validateAuthObject cfg) (fun _ =>
        inr (wrapResolve resolver (queryWithFilter cfg)))
  end.

(** The function [authQueryByIdsResolver] installs. *)
Definition queryByIds (authConfig : EntityAuthConfig) (next : Resolver W) : Resolver W :=
  fun rp =>
    user <- lift (read (context rp) "user") ;;
    if negb (isValidJwtPayload user) then throw (Error msg_token_required) else
    if checkIfCanReadAll user authConfig then next rp else
    if negb (checkIfCanReadSelf user authConfig) then throw (Error msg_cannot_see) else
    rp' <- lift (project_owner authConfig rp) ;;
    result <- next rp' ;;
    items <- lift (array_items result) ;;
    authResult <- lift (filter_owned (ownerKey authConfig) (prop user "id") items) ;;
    ret (VArr authResult).

Definition authQueryByIdsResolver (resolver : Resolver W)
    (authConfig : option EntityAuthConfig) : exn + Resolver W :=
  if negb (isAuthConfigImpactful authConfig) then inr resolver else
  match authConfig with
  | None => inr resolver
  | Some cfg =>
      ebind (validateAuthObject cfg) (fun _ =>
        inr (wrapResolve resolver (queryByIds cfg)))
  end.

(** The function [authQueryOneResolver] installs. *)
Definition queryOne (authConfig : EntityAuthConfig) (next : Resolver W) : Resolver W :=
  fun rp =>
    user <- lift (read (context rp) "user") ;;
    if negb (isValidJwtPayload user) then throw (Error msg_token_required) else
    if checkIfCanReadAll user authConfig then next rp else
    if negb (checkIfCanReadSelf user authConfig) then throw (Error msg_cannot_see) else
    rp' <- lift (project_owner authConfig rp) ;;
    result <- next rp' ;;
    if negb (truthy result) then ret VNull else
    ret (if strict_eq (prop result (ownerKey authConfig)) (prop user "id")
         then result else VNull).

Definition authQueryOneResolver (resolver : Resolver W)
    (authConfig : option EntityAuthConfig) : exn + Resolver W :=
  if negb (isAuthConfigImpactful authConfig) then inr resolver else
  match authConfig with
  | None => inr resolver
  | Some cfg =>
      ebind (validateAuthObject cfg) (fun _ =>
        inr (wrapResolve resolver (queryOne cfg)))
  end.

End Wrappers.

(** ** The "update each" resolver of [src/resolvers/updateByIdEach.ts] *)

Definition msg_records_required (typeName : string) : string :=
  typeName +:+ ".updateEach resolver requires args.records to be an Array and must contain at least one record".

Definition msg_records_nonempty (typeName : string) : string :=
  typeName +:+ ".updateEach resolver requires args.records to contain non-empty records, with at least one value".

(** The loop that checks every entry of [args.records]. *)
Fixpoint check_records (typeName : string) (recordData : list value) : exn + unit :=
  match recordData with
  | [] => inr tt
  | record :: rest =>
      if negb (String.eqb (typeof record) "object")
      then inl (Error (msg_records_nonempty typeName))
      else
        match keys_length record with
        | inl e => inl e
        | inr n =>
            if (n =? 0)%nat then inl (Error (msg_records_nonempty typeName))
            else check_records typeName rest
        end
  end.

(** One callback of [docs.map(async (doc) => ...)]: it has an update to
    issue, then a re-fetch, then its promise is fulfilled. *)
Inductive task : Type :=
| Updating (id doc : value)
| Refetching (id : value)
| Fulfilled (updatedRecord : value).

Definition task_record (t : task) : value :=
  match t with
  | Fulfilled updatedRecord => updatedRecord
  | _ => VUndefined
  end.

Section UpdateByIdEach.

Context {W : Type}.

(** What the resolver uses of the mongoose model: [new model(record)],
    [model.findByIdAndUpdate(id, doc)] and [model.findById(id)]. *)
Record Model : Type := {
  model_new : value -> Async W value;
  findByIdAndUpdate : value -> value -> Async W value;
  findById : value -> Async W value
}.

(** [resolveParams.beforeRecordMutate], when the caller set one. *)
Definition Hook : Type := value -> ResolveParams -> Async W value.

(** The loop that builds [docs]. *)
Fixpoint build_docs (model : Model) (beforeRecordMutate : option Hook)
    (resolveParams : ResolveParams) (recordData : list value) : Async W (list value) :=
  match recordData with
  | [] => ret []
  | record :: rest =>
      doc <- model_new model record ;;
      doc' <- match beforeRecordMutate with
              | Some hook => hook doc resolveParams
              | None => ret doc
              end ;;
      docs <- build_docs model beforeRecordMutate resolveParams rest ;;
      ret (doc' :: docs)
  end.

(** A callback runs up to its next [await]. *)
Definition step (model : Model) (t : task) : Async W task :=
  match t with
  | Updating id doc => _ <- findByIdAndUpdate model id doc ;; ret (Refetching id)
  | Refetching id => updatedRecord <- findById model id ;; ret (Fulfilled updatedRecord)
  | Fulfilled updatedRecord => ret (Fulfilled updatedRecord)
  end.

(** Whatever is left of the callbacks is run to the end, in index order. *)
Fixpoint drain (model : Model) (ts : list task) : Async W (list task) :=
  match ts with
  | [] => ret []
  | t :: rest =>
      t1 <- step model t ;;
      t2 <- step model t1 ;;
      rest' <- drain model rest ;;
      ret (t2 :: rest')
  end.

(** [Promise.all] over the callbacks.  The store answers in an order the
    code does not control: [sched] lists, step by step, the index of the
    callback whose pending store call completes next (an index of a
    fulfilled callback, or out of range, is a step where nothing happens).
    The first rejection rejects the whole call; the world returned is the
    one at that moment. *)
Fixpoint run_tasks (model : Model) (sched : list nat) (ts : list task)
  : Async W (list task) :=
  match sched with
  | [] => drain model ts
  | i :: later =>
      match ts !! i with
      | Some t => t' <- step model t ;; run_tasks model later (<[i := t']> ts)
      | None => run_tasks model later ts
      end
  end.

(** The [resolve] function of the resolver [updateByIdEach] creates
    ([typeName] is [tc.getTypeName()]).  All callbacks read [doc._id] before
    any store call completes. *)
Definition updateByIdEach (typeName : string) (model : Model) (sched : list nat)
    (beforeRecordMutate : option Hook) : Resolver W :=
  fun resolveParams =>
    let recordData := read_opt (args resolveParams) "records" in
    if negb (isArray recordData) || (length (elements_of recordData) =? 0)%nat
    then throw (Error (msg_records_required typeName)) else
    _ <- lift (check_records typeName (elements_of recordData)) ;;
    docs <- build_docs model beforeRecordMutate resolveParams (elements_of recordData) ;;
    ids <- lift (traverse (fun doc => read doc "_id") docs) ;;
    records <- run_tasks model sched (zip_with Updating ids docs) ;;
    ret (VObj (<[ "records" := VArr (task_record <$> records) ]>
                {[ "updatedCount" := VNum (Z.of_nat (length docs)) ]})).

End UpdateByIdEach.

Arguments Model W : clear implicits.
Arguments Hook W : clear implicits.

(** ** Observing calls *)

(** A resolver that also records, in the world, the parameters of every
    call made to it; and one lifted to the same world that records nothing. *)
Definition spy {W : Type} (r : Resolver W) : Resolver (W * list ResolveParams) :=
  fun rp ws =>
    match r rp (fst ws) with
    | (result, w') => (result, (w', snd ws ++ [rp]))
    end.

Definition unwatched {W : Type} (r : Resolver W) : Resolver (W * list ResolveParams) :=
  fun rp ws =>
    match r rp (fst ws) with
    | (result, w') => (result, (w', snd ws))
    end.

(** ** The vocabulary of the specification *)

(** The roles an identity claim carries. *)
Definition roles_of (claim : value) : list string :=
  omap (fun v => match v with VStr s => Some s | _ => None end)
       (elements_of (prop claim "permissions")).

(** The claim's roles intersect a role set of the policy. *)
Definition roles_intersect (claim : value) (roles : list string) : Prop :=
  exists role, role ∈ roles_of claim /\ role ∈ roles.

(** An invalid identity claim: missing, with a falsy subject id, or with
    roles that are not an array of strings. *)
Definition invalid_claim (claim : value) : Prop :=
  nullish claim = true
  \/ truthy (prop claim "id") = false
  \/ ~ (exists roles : list string, prop claim "permissions" = VArr (VStr <$> roles)).

(** The owner field of the policy is unset. *)
Definition ownerField_unset (policy : EntityAuthConfig) : Prop :=
  userIdField policy = None.

(** A record that is an object containing an id and at least one other
    field. *)
Definition record_with_id_and_field (record : value) : bool :=
  match record with
  | VObj fields => bool_decide (is_Some (fields !! "_id")) && (1 <? size fields)%nat
  | _ => false
  end.

(** A non-empty list of such records. *)
Definition batch_input_ok (recordData : value) : bool :=
  match recordData with
  | VArr (record :: rest) => forallb record_with_id_and_field (record :: rest)
  | _ => false
  end.

(** An entry the resolver's own loop refuses: one whose [typeof] is not
    ['object'], or an object (or an array) without any key. *)
Definition entry_refused (record : value) : bool :=
  negb (String.eqb (typeof record) "object")
  || match record with
     | VObj fields => (size fields =? 0)%nat
     | VArr items => (length items =? 0)%nat
     | _ => false
     end.

(** The record's owner field is the claim's subject id, as [===] sees it. *)
Definition owned_by (key : string) (id : value) (fields : gmap string value) : bool :=
  strict_eq (prop (VObj fields) key) id.

(** Two requests that differ at most in the value their filter gives for
    the field [key]. *)
Definition same_but_owner_filter (key : string) (rp1 rp2 : ResolveParams) : Prop :=
  context rp1 = context rp2 /\ projection rp1 = projection rp2 /\
  exists a1 a2 f1 f2 : gmap string value,
    args rp1 = VObj a1 /\ args rp2 = VObj a2 /\
    a1 !! "filter" = Some (VObj f1) /\ a2 !! "filter" = Some (VObj f2) /\
    (forall k, k <> "filter" -> a1 !! k = a2 !! k) /\
    (forall k, k <> key -> f1 !! k = f2 !! k).

(** A record the resolver's checks accept: an object with at least one
    field. *)
Definition record_with_field (record : value) : Prop :=
  exists fields : gmap string value, record = VObj fields /\ fields <> ∅.

(** [doc] is the document built for the input [record]: [new model(record)],
    passed through the pre-mutation hook when there is one. *)
Definition built_from {W : Type} (model : Model W) (beforeRecordMutate : option (Hook W))
    (rp : ResolveParams) (record doc : value) : Prop :=
  exists (w w1 : W) (fresh : value),
    model_new model record w = (inr fresh, w1)
    /\ match beforeRecordMutate with
       | Some hook => exists w2, hook fresh rp w1 = (inr doc, w2)
       | None => doc = fresh
       end.

(** [record] is what a re-fetch of [id] answered. *)
Definition refetched {W : Type} (model : Model W) (id record : value) : Prop :=
  exists w w' : W, findById model id w = (inr record, w').

(** The callback at hand is the one of the document with this [id]. *)
Definition task_for {W : Type} (model : Model W) (id : value) (t : task) : Prop :=
  match t with
  | Updating id' _ => id' = id
  | Refetching id' => id' = id
  | Fulfilled updatedRecord => refetched model id updatedRecord
  end.

(** The store answers every call, and documents are never
    [null]/[undefined]. *)
Definition model_answers {W : Type} (model : Model W) (beforeRecordMutate : option (Hook W))
    (rp : ResolveParams) : Prop :=
  (forall record w, exists doc w',
      model_new model record w = (inr doc, w') /\ nullish doc = false)
  /\ (forall hook, beforeRecordMutate = Some hook ->
       forall doc w, exists doc' w', hook doc rp w = (inr doc', w') /\ nullish doc' = false)
  /\ (forall id doc w, exists r w', findByIdAndUpdate model id doc w = (inr r, w'))
  /\ (forall id w, exists r w', findById model id w = (inr r, w')).

(** ** The rest of [src/functions.ts], [src/resolvers/getSchema.ts] and the
    decorators *)

(** [enum SubscriptionType]; the value of a member is its name. *)
Inductive SubscriptionType : Type :=
| Create
| Update
| Remove.

Definition SubscriptionType_value (subscriptionType : SubscriptionType) : string :=
  match subscriptionType with
  | Create => "Create"
  | Update => "Update"
  | Remove => "Remove"
  end.

Section Subscription.

Context {W : Type}.

(** [pubsub.publish(trigger, payload)]: the broker is part of the world.
    The promise it returns is not awaited. *)
Variable publish : string -> value -> W -> W.

(** [records.forEach((record) => pubsub.publish(trigger, record))] *)
Definition publish_each (trigger : string) (records : list value) : Async W unit :=
  fun w => (inr tt, foldl (fun w' record => publish trigger record w') w records).

(** [wrapResolverWithSubscription] *)
Definition wrapResolverWithSubscription (resolver : Resolver W)
    (subscriptionType : SubscriptionType) (name : string) : Resolver W :=
  wrapResolve resolver (fun next rp =>
    res <- next rp ;;
    if truthy (read_opt res "records") then
      records <- lift (array_items (read_opt res "records")) ;;
      _ <- publish_each (name +:+ SubscriptionType_value subscriptionType) records ;;
      ret res
    else if truthy (read_opt res "record") then
      _ <- publish_each (name +:+ SubscriptionType_value subscriptionType)
             [read_opt res "record"] ;;
      ret res
    else ret res).

(** Three mutation fields of [getGraphqlAttrs], over the base resolvers the
    ORM layer gives ([typeComposer.mongooseResolvers.createOne()] and so
    on). *)
Definition field_CreateOne (createOne : Resolver W) (name : string)
    (authConfig : option EntityAuthConfig) : exn + Resolver W :=
  wrapCreateAuth (wrapResolverWithSubscription createOne Create name) authConfig.

Definition field_UpdateById (updateById findById : Resolver W) (name : string)
    (authConfig : option EntityAuthConfig) : exn + Resolver W :=
  wrapMutationAuth (wrapResolverWithSubscription updateById Update name) authConfig findById.

Definition field_RemoveById (removeById findById : Resolver W) (name : string)
    (authConfig : option EntityAuthConfig) : exn + Resolver W :=
  wrapMutationAuth (wrapResolverWithSubscription removeById Remove name) authConfig findById.

(** [${name}UpdateByIdEach]: [typeName] is the name of the type composer,
    [sched] the completion order of the store calls of [updateByIdEach]. *)
Definition field_UpdateByIdEach (typeName : string) (model : Model W) (sched : list nat)
    (beforeRecordMutate : option (Hook W)) (findByIds : Resolver W)
    (name : string) (authConfig : option EntityAuthConfig) : exn + Resolver W :=
  authMutationByIdsEach
    (wrapResolverWithSubscription
       (updateByIdEach typeName model sched beforeRecordMutate) Update name)
    authConfig findByIds.

End Subscription.

(** The filter operators of [getGraphqlAttrs]:
    [{ _ids: true }] and one entry per filtered property. *)
Definition filter_operators (filteredProperties : option (list string))
  : gmap string value :=
  match filteredProperties with
  | Some properties =>
      foldl (fun operators property => <[property := VBool true]> operators)
            {[ "_ids" := VBool true ]} properties
  | None => {[ "_ids" := VBool true ]}
  end.

(** The decorator [Filtered()], applied to [(target, propertyKey)]. *)
Definition Filtered (target : value) (propertyKey : string) : exn + value :=
  ebind (read target "_filteredProperties") (fun filteredProperties =>
    if truthy filteredProperties then
      ebind (array_items filteredProperties) (fun items =>
        write target "_filteredProperties" (VArr (items ++ [VStr propertyKey])))
    else write target "_filteredProperties" (VArr [VStr propertyKey])).

(** The property decorators of a class run one after the other on its
    prototype. *)
Fixpoint decorate (target : value) (propertyKeys : list string) : exn + value :=
  match propertyKeys with
  | [] => inr target
  | propertyKey :: rest => ebind (Filtered target propertyKey) (fun t => decorate t rest)
  end.

(** *** [getSchema.ts] *)

Definition basicTypes : list string :=
  ["Boolean"; "Float"; "Int"; "MongoID"; "String"].

Definition basicRequiredTypes : list string :=
  ["Boolean!"; "Float!"; "Int!"; "MongoID!"; "String!"].

(** [list.includes(s)] *)
Definition includes (l : list string) (s : string) : bool :=
  existsb (String.eqb s) l.

(** [s.slice(0, -1)] *)
Fixpoint slice_init (s : string) : string :=
  match s with
  | EmptyString => EmptyString
  | String c EmptyString => EmptyString
  | String c rest => String c (slice_init rest)
  end.

(** [s.slice(-1)] *)
Fixpoint slice_last (s : string) : string :=
  match s with
  | EmptyString => EmptyString
  | String c EmptyString => String c EmptyString
  | String c rest => slice_last rest
  end.

(** What [getFieldsFromTypeComposer] asks of the type composer:
    [getFieldNames()], [getFieldType(field).toString()] and
    [getFieldOTC(field)], which may raise (its result is not used). *)
Record ObjectTypeComposer : Type := {
  getFieldNames : list string;
  getFieldType : string -> string;
  getFieldOTC : string -> exn + unit
}.

(** One turn of the loop: the value stored at [object[field]]. *)
Definition field_entry (typeComposer : ObjectTypeComposer) (field : string) : exn + value :=
  let type := getFieldType typeComposer field in
  if includes basicTypes type then
    inr (VObj (<[ "type" := VStr type ]> {[ "nullable" := VBool true ]}))
  else if includes basicRequiredTypes type then
    inr (VObj (<[ "type" := VStr (slice_init type) ]> {[ "nullable" := VBool false ]}))
  else
    let actualType := if String.eqb (slice_last type) "!" then slice_init type else type in
    ebind (getFieldOTC typeComposer field) (fun _ =>
      inr (VObj {[ "type" := VStr actualType ]})).

Fixpoint fields_loop (typeComposer : ObjectTypeComposer) (fields : list string)
    (object : gmap string value) : exn + gmap string value :=
  match fields with
  | [] => inr object
  | field :: rest =>
      ebind (field_entry typeComposer field) (fun entry =>
        fields_loop typeComposer rest (<[field := entry]> object))
  end.

Definition getFieldsFromTypeComposer (typeComposer : ObjectTypeComposer) : exn + value :=
  ebind (fields_loop typeComposer (getFieldNames typeComposer) ∅) (fun object =>
    inr (VObj object)).

(** *** Observing the calls to the model *)

Inductive model_call : Type :=
| CallNew (record : value)
| CallUpdate (id doc : value)
| CallFind (id : value).

(** The model, recording each call in the world. *)
Definition traced {W : Type} (model : Model W) : Model (W * list model_call) :=
  {| model_new := fun record ws =>
       match model_new model record (fst ws) with
       | (r, w') => (r, (w', snd ws ++ [CallNew record]))
       end;
     findByIdAndUpdate := fun id doc ws =>
       match findByIdAndUpdate model id doc (fst ws) with
       | (r, w') => (r, (w', snd ws ++ [CallUpdate id doc]))
       end;
     findById := fun id ws =>
       match findById model id (fst ws) with
       | (r, w') => (r, (w', snd ws ++ [CallFind id]))
       end |}.

Definition updates_of (calls : list model_call) : list (value * value) :=
  omap (fun c => match c with CallUpdate id doc => Some (id, doc) | _ => None end) calls.

Definition finds_of (calls : list model_call) : list value :=
  omap (fun c => match c with CallFind id => Some id | _ => None end) calls.

Definition news_of (calls : list model_call) : list value :=
  omap (fun c => match c with CallNew record => Some record | _ => None end) calls.

(** The updates and the re-fetches the callbacks have still to issue. *)
Definition updates_due (ts : list task) : list (value * value) :=
  omap (fun t => match t with Updating id doc => Some (id, doc) | _ => None end) ts.

Definition finds_due (ts : list task) : list value :=
  omap (fun t => match t with
                 | Updating id _ => Some id
                 | Refetching id => Some id
                 | Fulfilled _ => None
                 end) ts.

(** The owner field of a create payload's record is the only thing two
    requests differ in. *)
Definition same_but_record_owner (key : string) (rp1 rp2 : ResolveParams) : Prop :=
  context rp1 = context rp2 /\ projection rp1 = projection rp2 /\
  exists a1 a2 r1 r2 : gmap string value,
    args rp1 = VObj a1 /\ args rp2 = VObj a2 /\
    truthy (default VUndefined (a1 !! "records")) = false /\
    truthy (default VUndefined (a2 !! "records")) = false /\
    a1 !! "record" = Some (VObj r1) /\ a2 !! "record" = Some (VObj r2) /\
    (forall k, k <> "record" -> a1 !! k = a2 !! k) /\
    (forall k, k <> key -> r1 !! k = r2 !! k).

(** ** Collaborators for the scenarios *)

Module Scenario.

(** A delegate that answers with the arguments it was given. *)
Definition echo : Resolver unit := fun rp w => (inr (args rp), w).

(** A delegate that answers with one fixed value. *)
Definition answer (v : value) : Resolver unit := fun _ w => (inr v, w).

Definition claim (id : Z) (roles : list string) : value :=
  VObj (<[ "id" := VNum id ]> {[ "permissions" := VArr (VStr <$> roles) ]}).

Definition request (a : value) (user : value) : ResolveParams :=
  {| args := a; projection := VObj ∅; context := VObj {[ "user" := user ]} |}.

(** The policy of the README. *)
Definition readme_policy : EntityAuthConfig :=
  {| readAll := ["admin"]; writeAll := ["admin"];
     writeSelf := ["user"]; readSelf := ["user"];
     userIdField := Some "userId" |}.

(** The policy of the query-by-id scenario. *)
Definition self_policy : EntityAuthConfig :=
  {| readAll := []; writeAll := [];
     writeSelf := ["user"]; readSelf := ["user"];
     userIdField := Some "ownerId" |}.

(** A policy whose owner field is the empty string. *)
Definition empty_field_policy : EntityAuthConfig :=
  {| readAll := []; writeAll := [];
     writeSelf := []; readSelf := ["user"];
     userIdField := Some "" |}.

Definition record (id owner : Z) : value :=
  VObj (<[ "id" := VNum id ]> {[ "ownerId" := VNum owner ]}).

(** An in-memory collection: documents by numeric [_id]. *)
Definition collection_find (id : value) : Async (gmap Z value) value :=
  fun docs =>
    match id with
    | VNum n => (inr (default VNull (docs !! n)), docs)
    | _ => (inr VNull, docs)
    end.

Definition collection_update (id doc : value) : Async (gmap Z value) value :=
  fun docs =>
    match id, doc with
    | VNum n, VObj changes =>
        match docs !! n with
        | Some (VObj old) => (inr (VObj old), <[ n := VObj (changes ∪ old) ]> docs)
        | _ => (inr VNull, docs)
        end
    | _, _ => (inr VNull, docs)
    end.

(** A document is an object, whatever it is built from. *)
Definition collection_new (record : value) : Async (gmap Z value) value :=
  ret (match record with
       | VObj fields => VObj fields
       | _ => VObj ∅
       end).

Definition collection : Model (gmap Z value) :=
  {| model_new := collection_new;
     findByIdAndUpdate := collection_update;
     findById := collection_find |}.

Definition doc (id : Z) (val : string) : value :=
  VObj (<[ "_id" := VNum id ]> {[ "val" := VStr val ]}).

Definition two_docs : gmap Z value :=
  <[ 1%Z := doc 1 "old" ]> {[ 2%Z := doc 2 "old" ]}.

Definition batch (records : list value) : ResolveParams :=
  {| args := VObj {[ "records" := VArr records ]};
     projection := VObj ∅;
     context := VObj {[ "user" := VNull ]} |}.

End Scenario.

(** * Properties *)

(** ** Values and role sets *)

Lemma strict_eq_true (a b : value) : strict_eq a b = true -> a = b.
Proof.
  destruct a, b; simpl; try discriminate; try reflexivity; intros H.
  - apply Bool.eqb_prop in H. congruence.
  - apply Z.eqb_eq in H. congruence.
  - apply String.eqb_eq in H. congruence.
Qed.

Lemma strict_eq_neq (a b : value) : a <> b -> strict_eq a b = false.
Proof.
  intros Hne. destruct (strict_eq a b) eqn:E; [|reflexivity].
  apply strict_eq_true in E. contradiction.
Qed.

Lemma strict_eq_str (x : value) (r : string) : strict_eq x (VStr r) = true <-> x = VStr r.
Proof.
  split; [apply strict_eq_true|].
  intros ->. simpl. apply String.eqb_refl.
Qed.

Lemma uniq_nil (l : list value) : uniq l = [] <-> l = [].
Proof. destruct l; simpl; split; congruence. Qed.

Lemma existsb_roles (x : value) (roles : list string) :
  existsb (strict_eq x) (VStr <$> roles) = true <-> exists r, r ∈ roles /\ x = VStr r.
Proof.
  rewrite existsb_exists. split.
  - intros (y & Hin & Heq). apply list_elem_of_In, list_elem_of_fmap in Hin.
    destruct Hin as (r & -> & Hr). exists r. split; [assumption|].
    by apply strict_eq_str.
  - intros (r & Hr & ->). exists (VStr r). split.
    + apply list_elem_of_In, list_elem_of_fmap. eauto.
    + by apply strict_eq_str.
Qed.

(** [_.intersection(jwt.permissions, roles).length !== 0] holds exactly when
    the claim carries one of the roles. *)
Lemma intersection_nonempty (claim : value) (roles : list string) :
  negb (length (intersection (prop claim "permissions") roles) =? 0)%nat = true
  <-> roles_intersect claim roles.
Proof.
  unfold roles_intersect, roles_of, intersection.
  destruct (prop claim "permissions") as [| | | | |xs|]; simpl;
    try (split; [discriminate | intros (r & Hr & _); by apply elem_of_nil in Hr]).
  rewrite Bool.negb_true_iff, Nat.eqb_neq, length_zero_iff_nil, uniq_nil.
  split.
  - intros Hne.
    destruct (filter _ xs) as [|x l] eqn:E; [done|].
    assert (Hx : x ∈ filter (fun x => existsb (strict_eq x) (VStr <$> roles) = true) xs)
      by (rewrite E; left).
    apply list_elem_of_filter in Hx as [HP Hx].
    apply existsb_roles in HP as (r & Hr & ->).
    exists r. split; [|assumption].
    apply list_elem_of_omap. exists (VStr r). split; [assumption| reflexivity].
  - intros (r & Hr & Hroles) Hnil.
    apply list_elem_of_omap in Hr as (x & Hx & Hfx).
    destruct x; try discriminate. injection Hfx as ->.
    eapply filter_nil_not_elem_of; [exact Hnil| |exact Hx].
    simpl. apply existsb_roles. eauto.
Qed.

Lemma checkIfCanReadAll_intersect (claim : value) (policy : EntityAuthConfig) :
  checkIfCanReadAll claim policy = true <-> roles_intersect claim (readAll policy).
Proof. apply intersection_nonempty. Qed.

Lemma checkIfCanWriteAll_intersect (claim : value) (policy : EntityAuthConfig) :
  checkIfCanWriteAll claim policy = true <-> roles_intersect claim (writeAll policy).
Proof. apply intersection_nonempty. Qed.

Lemma checkIfCanReadSelf_intersect (claim : value) (policy : EntityAuthConfig) :
  checkIfCanReadSelf claim policy = true <-> roles_intersect claim (readSelf policy).
Proof. apply intersection_nonempty. Qed.

Lemma checkIfCanWriteSelf_intersect (claim : value) (policy : EntityAuthConfig) :
  checkIfCanWriteSelf claim policy = true <-> roles_intersect claim (writeSelf policy).
Proof. apply intersection_nonempty. Qed.

Lemma not_intersect_false (claim : value) (roles : list string) :
  ~ roles_intersect claim roles ->
  negb (length (intersection (prop claim "permissions") roles) =? 0)%nat = false.
Proof.
  intros Hn. apply Bool.not_true_is_false. by rewrite intersection_nonempty.
Qed.

(** ** The identity validator *)

Lemma isArrayOfStrings_roles (v : value) :
  isArrayOfStrings v = true <-> exists roles : list string, v = VArr (VStr <$> roles).
Proof.
  unfold isArrayOfStrings. split.
  - destruct v as [| | | | |items|]; simpl; try discriminate.
    induction items as [|item items IH]; simpl; intros H.
    + by exists [].
    + apply andb_prop in H as [Hitem Hrest].
      destruct (IH Hrest) as (roles & Hroles).
      destruct item; simpl in Hitem; try discriminate.
      exists (s :: roles). injection Hroles as ->. reflexivity.
  - intros (roles & ->). simpl.
    induction roles as [|r roles IH]; simpl; [reflexivity | assumption].
Qed.

(** [isValidJwtPayload] fails closed on exactly the invalid claims. *)
Lemma isValidJwtPayload_false (claim : value) :
  isValidJwtPayload claim = false <-> invalid_claim claim.
Proof.
  unfold isValidJwtPayload, invalid_claim. split.
  - destruct (truthy claim) eqn:Ht; simpl.
    + intros H. apply Bool.andb_false_iff in H as [H|H]; [by right; left|].
      right; right. intros Hex. apply isArrayOfStrings_roles in Hex. congruence.
    + intros _. destruct claim; simpl in *; try discriminate; try (by left);
        right; left; reflexivity.
  - intros [H | [H | H]].
    + destruct claim; try discriminate; reflexivity.
    + destruct (truthy claim); simpl; [|reflexivity]. by rewrite H.
    + destruct (truthy claim); simpl; [|reflexivity].
      apply Bool.andb_false_iff. right. apply Bool.not_true_is_false.
      by rewrite isArrayOfStrings_roles.
Qed.

(** ** Building a wrapper *)

Ltac run_async := unfold bind, lift, throw, ret; simpl.

Section Construction.

Context {W : Type}.
Implicit Types (resolver next find : Resolver W) (policy : EntityAuthConfig).

Lemma wrapCreateAuth_built resolver policy wrapped :
  wrapCreateAuth resolver (Some policy) = inr wrapped ->
  validateAuthObject policy = inr tt /\ wrapped = createAuth policy resolver.
Proof.
  unfold wrapCreateAuth, wrapResolve. simpl.
  destruct (validateAuthObject policy) as [e|[]]; simpl; [discriminate|].
  intros [= <-]. split; reflexivity.
Qed.

Lemma authMutationByIdsEach_built resolver policy find wrapped :
  authMutationByIdsEach resolver (Some policy) find = inr wrapped ->
  validateAuthObject policy = inr tt /\ wrapped = mutationByIdsEach policy find resolver.
Proof.
  unfold authMutationByIdsEach, wrapResolve. simpl.
  destruct (validateAuthObject policy) as [e|[]]; simpl; [discriminate|].
  intros [= <-]. split; reflexivity.
Qed.

Lemma wrapMutationAuth_built resolver policy find wrapped :
  wrapMutationAuth resolver (Some policy) find = inr wrapped ->
  validateAuthObject policy = inr tt /\ wrapped = mutationAuth policy find resolver.
Proof.
  unfold wrapMutationAuth, wrapResolve. simpl.
  destruct (validateAuthObject policy) as [e|[]]; simpl; [discriminate|].
  intros [= <-]. split; reflexivity.
Qed.

Lemma wrapMutationWithFilterAuth_built resolver policy find wrapped :
  wrapMutationWithFilterAuth resolver (Some policy) find = inr wrapped ->
  validateAuthObject policy = inr tt /\ wrapped = mutationWithFilterAuth policy resolver.
Proof.
  unfold wrapMutationWithFilterAuth, wrapResolve. simpl.
  destruct (validateAuthObject policy) as [e|[]]; simpl; [discriminate|].
  intros [= <-]. split; reflexivity.
Qed.

Lemma authQueryWithFilterResolver_built resolver policy wrapped :
  authQueryWithFilterResolver resolver (Some policy) = inr wrapped ->
  validateAuthObject policy = inr tt /\ wrapped = queryWithFilter policy resolver.
Proof.
  unfold authQueryWithFilterResolver, wrapResolve. simpl.
  destruct (validateAuthObject policy) as [e|[]]; simpl; [discriminate|].
  intros [= <-]. split; reflexivity.
Qed.

Lemma authQueryByIdsResolver_built resolver policy wrapped :
  authQueryByIdsResolver resolver (Some policy) = inr wrapped ->
  validateAuthObject policy = inr tt /\ wrapped = queryByIds policy resolver.
Proof.
  unfold authQueryByIdsResolver, wrapResolve. simpl.
  destruct (validateAuthObject policy) as [e|[]]; simpl; [discriminate|].
  intros [= <-]. split; reflexivity.
Qed.

Lemma authQueryOneResolver_built resolver policy wrapped :
  authQueryOneResolver resolver (Some policy) = inr wrapped ->
  validateAuthObject policy = inr tt /\ wrapped = queryOne policy resolver.
Proof.
  unfold authQueryOneResolver, wrapResolve. simpl.
  destruct (validateAuthObject policy) as [e|[]]; simpl; [discriminate|].
  intros [= <-]. split; reflexivity.
Qed.

(** [validateAuthObject] raises exactly on a falsy owner field together
    with a non-empty self set. *)
Lemma validateAuthObject_raises policy :
  validateAuthObject policy = inl (Error msg_wrong_config)
  <-> (userIdField policy = None \/ userIdField policy = Some "")
      /\ (readSelf policy <> [] \/ writeSelf policy <> []).
Proof.
  unfold validateAuthObject, userIdField_falsy.
  assert (Hlen : forall l : list string, negb (length l =? 0)%nat = true <-> l <> []).
  { intros l. destruct l; simpl; split; congruence. }
  split.
  - destruct (userIdField policy) as [f|] eqn:Ef; simpl.
    + destruct (String.eqb_spec f ""); simpl; [|discriminate].
      destruct (negb (length (readSelf policy) =? 0)%nat
                || negb (length (writeSelf policy) =? 0)%nat) eqn:E; [|discriminate].
      intros _. subst f. split; [by right|].
      apply Bool.orb_true_iff in E. rewrite !Hlen in E. exact E.
    + destruct (negb (length (readSelf policy) =? 0)%nat
                || negb (length (writeSelf policy) =? 0)%nat) eqn:E; [|discriminate].
      intros _. split; [by left|].
      apply Bool.orb_true_iff in E. rewrite !Hlen in E. exact E.
  - intros [Hf Hs].
    assert (E : negb (length (readSelf policy) =? 0)%nat
                || negb (length (writeSelf policy) =? 0)%nat = true).
    { apply Bool.orb_true_iff. rewrite !Hlen. exact Hs. }
    destruct Hf as [-> | ->]; simpl; rewrite E; reflexivity.
Qed.

Lemma validateAuthObject_cases policy :
  validateAuthObject policy = inl (Error msg_wrong_config)
  \/ validateAuthObject policy = inr tt.
Proof.
  unfold validateAuthObject.
  destruct (userIdField_falsy policy && _); [by left | by right].
Qed.

End Construction.

(** ** One request through a wrapper *)

Section Requests.

Context {W : Type}.
Implicit Types (resolver next find : Resolver W) (policy : EntityAuthConfig).
Implicit Types (rp : ResolveParams) (w : W) (user : value).

(** *** The identity gate *)

Lemma createAuth_gate policy next rp w user :
  read (context rp) "user" = inr user -> isValidJwtPayload user = false ->
  createAuth policy next rp w = (inl (Error msg_token_required), w).
Proof. intros Hu Hv. unfold createAuth. run_async. rewrite Hu. simpl. by rewrite Hv. Qed.

Lemma mutationByIdsEach_gate policy find next rp w user :
  read (context rp) "user" = inr user -> isValidJwtPayload user = false ->
  mutationByIdsEach policy find next rp w = (inl (Error msg_token_required), w).
Proof. intros Hu Hv. unfold mutationByIdsEach. run_async. rewrite Hu. simpl. by rewrite Hv. Qed.

Lemma mutationAuth_gate policy find next rp w user :
  read (context rp) "user" = inr user -> isValidJwtPayload user = false ->
  mutationAuth policy find next rp w = (inl (Error msg_token_required), w).
Proof. intros Hu Hv. unfold mutationAuth. run_async. rewrite Hu. simpl. by rewrite Hv. Qed.

Lemma mutationWithFilterAuth_gate policy next rp w user :
  read (context rp) "user" = inr user -> isValidJwtPayload user = false ->
  mutationWithFilterAuth policy next rp w = (inl (Error msg_token_required), w).
Proof.
  intros Hu Hv. unfold mutationWithFilterAuth. run_async. rewrite Hu. simpl. by rewrite Hv.
Qed.

Lemma queryWithFilter_gate policy next rp w user :
  read (context rp) "user" = inr user -> isValidJwtPayload user = false ->
  queryWithFilter policy next rp w = (inl (Error msg_token_required), w).
Proof. intros Hu Hv. unfold queryWithFilter. run_async. rewrite Hu. simpl. by rewrite Hv. Qed.

Lemma queryByIds_gate policy next rp w user :
  read (context rp) "user" = inr user -> isValidJwtPayload user = false ->
  queryByIds policy next rp w = (inl (Error msg_token_required), w).
Proof. intros Hu Hv. unfold queryByIds. run_async. rewrite Hu. simpl. by rewrite Hv. Qed.

Lemma queryOne_gate policy next rp w user :
  read (context rp) "user" = inr user -> isValidJwtPayload user = false ->
  queryOne policy next rp w = (inl (Error msg_token_required), w).
Proof. intros Hu Hv. unfold queryOne. run_async. rewrite Hu. simpl. by rewrite Hv. Qed.

(** *** Write-all claims *)

Lemma mutationAuth_all policy find next rp w user :
  read (context rp) "user" = inr user -> isValidJwtPayload user = true ->
  checkIfCanWriteAll user policy = true ->
  mutationAuth policy find next rp w = next rp w.
Proof.
  intros Hu Hv Ha. unfold mutationAuth. run_async. rewrite Hu. simpl. by rewrite Hv, Ha.
Qed.

Lemma mutationWithFilterAuth_all policy next rp w user :
  read (context rp) "user" = inr user -> isValidJwtPayload user = true ->
  checkIfCanWriteAll user policy = true ->
  mutationWithFilterAuth policy next rp w = next rp w.
Proof.
  intros Hu Hv Ha. unfold mutationWithFilterAuth. run_async. rewrite Hu. simpl.
  by rewrite Hv, Ha.
Qed.

Lemma mutationByIdsEach_all policy find next rp w user :
  read (context rp) "user" = inr user -> isValidJwtPayload user = true ->
  checkIfCanWriteAll user policy = true ->
  mutationByIdsEach policy find next rp w = next rp w.
Proof.
  intros Hu Hv Ha. unfold mutationByIdsEach. run_async. rewrite Hu. simpl.
  by rewrite Hv, Ha.
Qed.

(** *** Creation: the owner field is stamped for every permitted writer *)

Lemma traverse_stamp (key : string) (id : value) (records : list (gmap string value)) :
  traverse (fun obj => write obj key id) (VObj <$> records)
  = inr ((fun fields => VObj (<[key := id]> fields)) <$> records).
Proof.
  induction records as [|r records IH]; [reflexivity|].
  rewrite !fmap_cons. simpl. rewrite IH. reflexivity.
Qed.

Lemma createAuth_record policy next rp w user (a fields : gmap string value) :
  read (context rp) "user" = inr user -> isValidJwtPayload user = true ->
  checkIfCanWriteSelf user policy = true \/ checkIfCanWriteAll user policy = true ->
  args rp = VObj a ->
  truthy (default VUndefined (a !! "records")) = false ->
  a !! "record" = Some (VObj fields) ->
  createAuth policy next rp w
  = next (with_args rp (VObj (<["record" :=
            VObj (<[ownerKey policy := prop user "id"]> fields)]> a))) w.
Proof.
  intros Hu Hv Hp Ha Hrs Hr. unfold createAuth. run_async. rewrite Hu. simpl. rewrite Hv. simpl.
  assert (Hg : negb (checkIfCanWriteSelf user policy)
               && negb (checkIfCanWriteAll user policy) = false).
  { destruct Hp as [-> | ->]; simpl; [reflexivity | apply Bool.andb_false_r]. }
  rewrite Hg. unfold read, set_arg. rewrite Ha. simpl. rewrite Hrs, Hr. simpl.
  reflexivity.
Qed.

Lemma createAuth_records policy next rp w user (a : gmap string value)
    (records : list (gmap string value)) :
  read (context rp) "user" = inr user -> isValidJwtPayload user = true ->
  checkIfCanWriteSelf user policy = true \/ checkIfCanWriteAll user policy = true ->
  args rp = VObj a ->
  a !! "records" = Some (VArr (VObj <$> records)) ->
  createAuth policy next rp w
  = next (with_args rp (VObj (<["records" :=
            VArr ((fun fields => VObj (<[ownerKey policy := prop user "id"]> fields))
                    <$> records)]> a))) w.
Proof.
  intros Hu Hv Hp Ha Hrs. unfold createAuth. run_async. rewrite Hu. simpl. rewrite Hv. simpl.
  assert (Hg : negb (checkIfCanWriteSelf user policy)
               && negb (checkIfCanWriteAll user policy) = false).
  { destruct Hp as [-> | ->]; simpl; [reflexivity | apply Bool.andb_false_r]. }
  rewrite Hg. unfold read, set_arg. rewrite Ha. simpl. rewrite Hrs. simpl.
  rewrite traverse_stamp. simpl. reflexivity.
Qed.

(** *** Self-scoped mutations by id *)

Lemma count_owned_records (key : string) (id : value)
    (records : list (gmap string value)) (n : nat) :
  count_owned key id (VObj <$> records) n
  = inr (n + length (filter (fun fields => owned_by key id fields = true) records))%nat.
Proof.
  revert n. induction records as [|r records IH]; intros n.
  - simpl. by rewrite Nat.add_0_r.
  - rewrite fmap_cons. simpl. rewrite IH. rewrite filter_cons. unfold owned_by at 2. simpl.
    destruct (strict_eq (default VUndefined (r !! key)) id) eqn:E.
    + rewrite decide_True by exact E. simpl. by rewrite Nat.add_succ_r.
    + rewrite decide_False by (unfold owned_by; simpl; congruence). reflexivity.
Qed.

Lemma filter_owned_records (key : string) (id : value)
    (records : list (gmap string value)) :
  filter_owned key id (VObj <$> records)
  = inr (VObj <$> filter (fun fields => owned_by key id fields = true) records).
Proof.
  induction records as [|r records IH]; [reflexivity|].
  rewrite fmap_cons. simpl. rewrite IH. rewrite filter_cons. unfold owned_by at 2. simpl.
  destruct (strict_eq (default VUndefined (r !! key)) id) eqn:E.
  - rewrite decide_True by exact E. reflexivity.
  - rewrite decide_False by (unfold owned_by; simpl; congruence). reflexivity.
Qed.

Lemma filter_all_length {A : Type} (P : A -> Prop) `{Hdec : !forall x, Decision (P x)}
    (l : list A) :
  length (filter P l) = length l <-> Forall P l.
Proof.
  induction l as [|x l IH]; simpl.
  - split; [constructor | reflexivity].
  - rewrite filter_cons. destruct (decide (P x)) as [Hx|Hx]; simpl.
    + rewrite Forall_cons. split.
      * intros [= Hlen]. split; [assumption | by apply IH].
      * intros [_ Hall]. f_equal. by apply IH.
    + split.
      * intros Hlen. pose proof (length_filter P l). lia.
      * intros Hall. apply Forall_cons in Hall as [Hall _]. contradiction.
Qed.

Lemma mutationAuth_self_fetch policy find next rp w user found w' :
  read (context rp) "user" = inr user -> isValidJwtPayload user = true ->
  checkIfCanWriteAll user policy = false ->
  checkIfCanWriteSelf user policy = true ->
  find (prefetch_params policy (args rp)) w = (inr found, w') ->
  (forall fields : gmap string value,
      found = VObj fields ->
      mutationAuth policy find next rp w
      = if strict_eq (prop found "length") VUndefined
        then if owned_by (ownerKey policy) (prop user "id") fields
             then next rp w' else (inl (Error msg_denied), w')
        else (inl TypeError, w'))
  /\ (forall records : list (gmap string value),
      found = VArr (VObj <$> records) ->
      mutationAuth policy find next rp w
      = if bool_decide (Forall (fun fields =>
                          owned_by (ownerKey policy) (prop user "id") fields = true) records)
        then next rp w' else (inl (Error msg_denied), w')).
Proof.
  intros Hu Hv Ha Hs Hf. split.
  - intros fields ->. unfold mutationAuth. run_async.
    rewrite Hu. simpl. rewrite Hv, Ha, Hs. simpl. rewrite Hf. simpl.
    destruct (strict_eq (default VUndefined (fields !! "length")) VUndefined);
      [|reflexivity]. simpl. unfold owned_by. simpl.
    destruct (strict_eq (default VUndefined (fields !! ownerKey policy)) (prop user "id"));
      reflexivity.
  - intros records ->. unfold mutationAuth. run_async.
    rewrite Hu. simpl. rewrite Hv, Ha, Hs. simpl. rewrite Hf. simpl.
    rewrite count_owned_records. simpl. rewrite length_fmap.
    set (P := fun fields => owned_by (ownerKey policy) (prop user "id") fields = true).
    destruct (bool_decide_reflect (Forall P records)) as [Hall|Hnot].
    + apply (proj2 (filter_all_length P records)) in Hall.
      rewrite Hall, Z.eqb_refl. reflexivity.
    + destruct (Z.eqb_spec (Z.of_nat (length (filter P records)))
                           (Z.of_nat (length records))) as [E|E]; [|reflexivity].
      apply Nat2Z.inj in E. apply filter_all_length in E. contradiction.
Qed.

(** *** Self-scoped "update each" *)

Lemma mutationByIdsEach_self_fetch policy find next rp w user
    (a : gmap string value) (records : list value) (ids : list value)
    (found : list (gmap string value)) w' :
  read (context rp) "user" = inr user -> isValidJwtPayload user = true ->
  checkIfCanWriteAll user policy = false ->
  checkIfCanWriteSelf user policy = true ->
  args rp = VObj a -> a !! "records" = Some (VArr records) ->
  traverse (fun record => read record "_id") records = inr ids ->
  find (prefetch_params policy (VObj {[ "_ids" := VArr ids ]})) w
    = (inr (VArr (VObj <$> found)), w') ->
  mutationByIdsEach policy find next rp w
  = if bool_decide (Forall (fun fields =>
                      owned_by (ownerKey policy) (prop user "id") fields = true) found)
    then next rp w' else (inl (Error msg_denied), w').
Proof.
  intros Hu Hv Ha Hs Hargs Hrs Hids Hf. unfold mutationByIdsEach. run_async.
  rewrite Hu. simpl. rewrite Hv, Ha, Hs. simpl.
  unfold read at 1. rewrite Hargs. simpl. rewrite Hrs. simpl. rewrite Hids. simpl.
  rewrite Hf. simpl. rewrite filter_owned_records. simpl. rewrite !length_fmap.
  set (P := fun fields => owned_by (ownerKey policy) (prop user "id") fields = true).
  destruct (bool_decide_reflect (Forall P found)) as [Hall|Hnot].
  - apply (proj2 (filter_all_length P found)) in Hall.
    rewrite Hall, Nat.eqb_refl. reflexivity.
  - destruct (Nat.eqb_spec (length (filter P found)) (length found)) as [E|E]; [|reflexivity].
    apply filter_all_length in E. contradiction.
Qed.

(** *** Self-scoped operations with a filter *)

Lemma inject_owner_filter_object policy (id : value) rp (a f : gmap string value) :
  args rp = VObj a -> a !! "filter" = Some (VObj f) ->
  inject_owner_filter policy id rp
  = inr (with_args rp (VObj (<["filter" := VObj (<[ownerKey policy := id]> f)]> a))).
Proof.
  intros Ha Hf. unfold inject_owner_filter, read, set_arg, ebind.
  rewrite Ha. simpl. rewrite Hf. reflexivity.
Qed.

Lemma inject_owner_filter_none policy (id : value) rp (a : gmap string value) :
  args rp = VObj a -> truthy (default VUndefined (a !! "filter")) = false ->
  inject_owner_filter policy id rp
  = inr (with_args rp (VObj (<["filter" := VObj {[ownerKey policy := id]}]> a))).
Proof.
  intros Ha Hf. unfold inject_owner_filter, read, set_arg, ebind.
  rewrite Ha. simpl. rewrite Hf. reflexivity.
Qed.

Lemma inject_owner_filter_blind policy (id : value) rp1 rp2 :
  same_but_owner_filter (ownerKey policy) rp1 rp2 ->
  inject_owner_filter policy id rp1 = inject_owner_filter policy id rp2.
Proof.
  intros (Hc & Hp & a1 & a2 & f1 & f2 & Ha1 & Ha2 & Hf1 & Hf2 & Ha & Hf).
  rewrite (inject_owner_filter_object policy id rp1 a1 f1 Ha1 Hf1).
  rewrite (inject_owner_filter_object policy id rp2 a2 f2 Ha2 Hf2).
  unfold with_args. rewrite Hc, Hp. do 3 f_equal.
  assert (Hff : <[ownerKey policy := id]> f1 = <[ownerKey policy := id]> f2).
  { apply map_eq. intros k. destruct (decide (ownerKey policy = k)) as [<-|Hk].
    - by rewrite !lookup_insert_eq.
    - rewrite !lookup_insert_ne by assumption. by apply Hf. }
  rewrite Hff. apply map_eq. intros k. destruct (decide ("filter" = k)) as [<-|Hk].
  - by rewrite !lookup_insert_eq.
  - rewrite !lookup_insert_ne by assumption. by apply Ha.
Qed.

Lemma queryWithFilter_self policy next rp w user :
  read (context rp) "user" = inr user -> isValidJwtPayload user = true ->
  checkIfCanReadAll user policy = false ->
  checkIfCanReadSelf user policy = true ->
  queryWithFilter policy next rp w
  = match inject_owner_filter policy (prop user "id") rp with
    | inl e => (inl e, w)
    | inr rp' => next rp' w
    end.
Proof.
  intros Hu Hv Ha Hs. unfold queryWithFilter. run_async.
  rewrite Hu. simpl. rewrite Hv, Ha, Hs. simpl.
  destruct (inject_owner_filter policy (prop user "id") rp); reflexivity.
Qed.

Lemma mutationWithFilterAuth_self policy next rp w user :
  read (context rp) "user" = inr user -> isValidJwtPayload user = true ->
  checkIfCanWriteAll user policy = false ->
  checkIfCanWriteSelf user policy = true ->
  mutationWithFilterAuth policy next rp w
  = match inject_owner_filter policy (prop user "id") rp with
    | inl e => (inl e, w)
    | inr rp' => next rp' w
    end.
Proof.
  intros Hu Hv Ha Hs. unfold mutationWithFilterAuth. run_async.
  rewrite Hu. simpl. rewrite Hv, Ha, Hs. simpl.
  destruct (inject_owner_filter policy (prop user "id") rp); reflexivity.
Qed.

(** *** Self-scoped query of one record by id *)

Lemma queryOne_self policy next rp rp' w user result w' :
  read (context rp) "user" = inr user -> isValidJwtPayload user = true ->
  checkIfCanReadAll user policy = false ->
  checkIfCanReadSelf user policy = true ->
  project_owner policy rp = inr rp' ->
  next rp' w = (inr result, w') ->
  queryOne policy next rp w
  = (inr (if negb (truthy result) then VNull
          else if strict_eq (prop result (ownerKey policy)) (prop user "id")
               then result else VNull), w').
Proof.
  intros Hu Hv Ha Hs Hp Hn. unfold queryOne. run_async.
  rewrite Hu. simpl. rewrite Hv, Ha, Hs. simpl. rewrite Hp. simpl. rewrite Hn.
  destruct (truthy result); reflexivity.
Qed.

End Requests.

(** *** What a recording delegate sees *)

Lemma spy_call {W : Type} (r : Resolver W) rp (w : W) (calls : list ResolveParams) :
  spy r rp (w, calls) = (fst (r rp w), (snd (r rp w), calls ++ [rp])).
Proof. unfold spy. simpl. by destruct (r rp w). Qed.

Lemma unwatched_call {W : Type} (r : Resolver W) rp (w : W) (calls : list ResolveParams) :
  unwatched r rp (w, calls) = (fst (r rp w), (snd (r rp w), calls)).
Proof. unfold unwatched. simpl. by destruct (r rp w). Qed.

(** ** Claims about the authorization wrappers *)

Import Scenario.

(** C1, as stated, does not hold of the create wrapper: for a claim with a
    write-all role ([admin] under the README's policy), [wrapCreateAuth]
    hands the delegate a record stamped with the owner field, not the
    record the caller sent. *)
Lemma create_stamps_owner_under_writeAll :
  let sent := request (VObj {[ "record" := VObj {[ "name" := VStr "x" ]} ]})
                      (claim 7 ["admin"]) in
  let delegated :=
    request (VObj {[ "record" := VObj (<[ "userId" := VNum 7 ]> {[ "name" := VStr "x" ]}) ]})
            (claim 7 ["admin"]) in
  roles_intersect (claim 7 ["admin"]) (writeAll readme_policy)
  /\ exists wrapped,
       wrapCreateAuth (spy echo) (Some readme_policy) = inr wrapped
       /\ snd (snd (wrapped sent (tt, []))) = [delegated]
       /\ delegated <> sent.
Proof.
  split.
  - apply checkIfCanWriteAll_intersect. reflexivity.
  - eexists. split; [reflexivity|]. split; [vm_compute; reflexivity|].
    intros H. apply (f_equal (fun rp => prop (prop (args rp) "record") "userId")) in H.
    vm_compute in H. discriminate.
Qed.

(** C1 (amended): for a valid claim whose roles intersect [writeAll],
    whatever [writeSelf] holds, the update and remove wrappers
    ([wrapMutationAuth], [wrapMutationWithFilterAuth],
    [authMutationByIdsEach]) call the underlying resolver exactly once, with
    the request as it came, and return what it returns; the create wrapper,
    for a policy that names an owner field, calls it once with the owner
    field of the record (of every record of [records]) set to the claim's
    subject id. *)
Theorem write_all_delegation {W : Type} (resolver find : Resolver W)
    (policy : EntityAuthConfig) (rp : ResolveParams) (w : W) (user : value) :
  read (context rp) "user" = inr user ->
  isValidJwtPayload user = true ->
  roles_intersect user (writeAll policy) ->
  (forall wrapped,
      wrapMutationAuth (spy resolver) (Some policy) (unwatched find) = inr wrapped
      \/ wrapMutationWithFilterAuth (spy resolver) (Some policy) (unwatched find) = inr wrapped
      \/ authMutationByIdsEach (spy resolver) (Some policy) (unwatched find) = inr wrapped ->
      wrapped rp (w, []) = (fst (resolver rp w), (snd (resolver rp w), [rp])))
  /\ (forall wrapped field (a : gmap string value),
      wrapCreateAuth (spy resolver) (Some policy) = inr wrapped ->
      userIdField policy = Some field ->
      args rp = VObj a ->
      (forall fields : gmap string value,
          truthy (default VUndefined (a !! "records")) = false ->
          a !! "record" = Some (VObj fields) ->
          let rp' := with_args rp
                       (VObj (<["record" := VObj (<[field := prop user "id"]> fields)]> a)) in
          wrapped rp (w, []) = (fst (resolver rp' w), (snd (resolver rp' w), [rp'])))
      /\ (forall records : list (gmap string value),
          a !! "records" = Some (VArr (VObj <$> records)) ->
          let rp' := with_args rp
                       (VObj (<["records" :=
                          VArr ((fun fields => VObj (<[field := prop user "id"]> fields))
                                  <$> records)]> a)) in
          wrapped rp (w, []) = (fst (resolver rp' w), (snd (resolver rp' w), [rp'])))).
Proof.
  intros Hu Hv Hall. apply checkIfCanWriteAll_intersect in Hall. split.
  - intros wrapped [H | [H | H]].
    + apply wrapMutationAuth_built in H as [_ ->].
      rewrite (mutationAuth_all _ _ _ _ _ user) by assumption. apply spy_call.
    + apply wrapMutationWithFilterAuth_built in H as [_ ->].
      rewrite (mutationWithFilterAuth_all _ _ _ _ user) by assumption. apply spy_call.
    + apply authMutationByIdsEach_built in H as [_ ->].
      rewrite (mutationByIdsEach_all _ _ _ _ _ user) by assumption. apply spy_call.
  - intros wrapped field a H Hfield Ha. apply wrapCreateAuth_built in H as [_ ->].
    assert (Hkey : ownerKey policy = field) by (unfold ownerKey; by rewrite Hfield).
    split.
    + intros fields Hrs Hr rp'.
      rewrite (createAuth_record _ _ _ _ user a fields) by auto.
      rewrite Hkey. apply spy_call.
    + intros records Hrs rp'.
      rewrite (createAuth_records _ _ _ _ user a records) by auto.
      rewrite Hkey. apply spy_call.
Qed.

Lemma write_all_delegation_witness :
  let rp := request (VObj {[ "_id" := VNum 1 ]}) (claim 7 ["admin"]) in
  mutationAuth readme_policy (unwatched (answer VNull)) (spy echo) rp (tt, [])
  = (inr (args rp), (tt, [rp])).
Proof.
  intros rp.
  apply (write_all_delegation echo (answer VNull) readme_policy rp tt (claim 7 ["admin"])).
  - reflexivity.
  - reflexivity.
  - apply checkIfCanWriteAll_intersect. reflexivity.
  - left. reflexivity.
Defined.

(** C2: under a valid claim with a write-self role and no write-all role,
    [wrapMutationAuth] pre-fetches the target; when the fetch answers with a
    record whose owner field is not the claim's subject id, or with a batch
    of records one of which has another owner, the call fails in the world
    the fetch left, and the underlying update/remove resolver has not been
    called (its call log is empty).  The failure is "Acces denied." (the
    access-denied failure) for a batch and for every record that has no
    [length] property of its own; [length] is what the code tells a batch
    from a single record by. *)
Theorem foreign_record_denied {W : Type} (resolver find : Resolver W)
    (policy : EntityAuthConfig) (wrapped : Resolver (W * list ResolveParams))
    (rp : ResolveParams) (w w' : W) (user found : value) :
  wrapMutationAuth (spy resolver) (Some policy) (unwatched find) = inr wrapped ->
  read (context rp) "user" = inr user ->
  isValidJwtPayload user = true ->
  roles_intersect user (writeSelf policy) ->
  ~ roles_intersect user (writeAll policy) ->
  find (prefetch_params policy (args rp)) w = (inr found, w') ->
  (exists fields : gmap string value,
      found = VObj fields /\ prop found (ownerKey policy) <> prop user "id")
  \/ (exists (records : list (gmap string value)) (fields : gmap string value),
      found = VArr (VObj <$> records) /\ fields ∈ records
      /\ prop (VObj fields) (ownerKey policy) <> prop user "id") ->
  exists e : exn,
    wrapped rp (w, []) = (inl e, (w', []))
    /\ (isArray found = true \/ prop found "length" = VUndefined -> e = Error msg_denied).
Proof.
  intros H Hu Hv Hs Ha Hf Hforeign.
  apply wrapMutationAuth_built in H as [_ ->].
  apply checkIfCanWriteSelf_intersect in Hs.
  apply not_intersect_false in Ha.
  assert (Hf' : unwatched find (prefetch_params policy (args rp)) (w, [])
                = (inr found, (w', []))).
  { rewrite unwatched_call, Hf. reflexivity. }
  destruct (mutationAuth_self_fetch policy (unwatched find) (spy resolver) rp (w, [])
              user found (w', []) Hu Hv Ha Hs Hf') as [Hone Hmany].
  destruct Hforeign as [(fields & -> & Hne) | (records & fields & -> & Hin & Hne)].
  - rewrite (Hone fields eq_refl). unfold owned_by. rewrite (strict_eq_neq _ _ Hne).
    destruct (strict_eq (prop (VObj fields) "length") VUndefined) eqn:Elen.
    + exists (Error msg_denied). split; reflexivity.
    + exists TypeError. split; [reflexivity|].
      intros [Harr | Hlen]; [discriminate|]. rewrite Hlen in Elen. discriminate.
  - exists (Error msg_denied). split; [|reflexivity].
    rewrite (Hmany records eq_refl). rewrite bool_decide_eq_false_2; [reflexivity|].
    intros Hall. rewrite Forall_forall in Hall. specialize (Hall fields Hin).
    unfold owned_by in Hall. apply strict_eq_true in Hall. contradiction.
Qed.

Lemma foreign_record_denied_witness :
  let rp := request (VObj {[ "_id" := VNum 1 ]}) (claim 7 ["user"]) in
  exists e : exn,
    mutationAuth self_policy (unwatched (answer (record 1 9))) (spy echo) rp (tt, [])
    = (inl e, (tt, []))
    /\ (isArray (record 1 9) = true \/ prop (record 1 9) "length" = VUndefined ->
        e = Error msg_denied).
Proof.
  intros rp.
  apply (foreign_record_denied echo (answer (record 1 9)) self_policy _ rp tt tt
           (claim 7 ["user"]) (record 1 9)).
  - reflexivity.
  - reflexivity.
  - reflexivity.
  - apply checkIfCanWriteSelf_intersect. reflexivity.
  - rewrite <- checkIfCanWriteAll_intersect. vm_compute. discriminate.
  - reflexivity.
  - left. eexists. split; [reflexivity|]. vm_compute. discriminate.
Defined.

(** C3: for a request whose identity claim is invalid (missing, with a
    falsy subject id, or with roles that are not an array of strings), each
    of the seven wrappers built over a policy fails with
    "Access denied. Valid JWT token required" (the authentication-required
    failure) and neither the underlying resolver nor the pre-fetch resolver
    has been called: the world is untouched and the call log is empty.
    ([user] is what the context object of the request holds; the server
    puts [null] there when the request carries no identity.) *)
Theorem invalid_claim_rejected {W : Type} (resolver find : Resolver W)
    (policy : EntityAuthConfig) (wrapped : Resolver (W * list ResolveParams))
    (rp : ResolveParams) (w : W) (user : value) :
  read (context rp) "user" = inr user ->
  invalid_claim user ->
  wrapCreateAuth (spy resolver) (Some policy) = inr wrapped
  \/ authMutationByIdsEach (spy resolver) (Some policy) (spy find) = inr wrapped
  \/ wrapMutationAuth (spy resolver) (Some policy) (spy find) = inr wrapped
  \/ wrapMutationWithFilterAuth (spy resolver) (Some policy) (spy find) = inr wrapped
  \/ authQueryWithFilterResolver (spy resolver) (Some policy) = inr wrapped
  \/ authQueryByIdsResolver (spy resolver) (Some policy) = inr wrapped
  \/ authQueryOneResolver (spy resolver) (Some policy) = inr wrapped ->
  wrapped rp (w, []) = (inl (Error msg_token_required), (w, [])).
Proof.
  intros Hu Hinv H. apply isValidJwtPayload_false in Hinv.
  destruct H as [H | [H | [H | [H | [H | [H | H]]]]]].
  - apply wrapCreateAuth_built in H as [_ ->]. by eapply createAuth_gate.
  - apply authMutationByIdsEach_built in H as [_ ->]. by eapply mutationByIdsEach_gate.
  - apply wrapMutationAuth_built in H as [_ ->]. by eapply mutationAuth_gate.
  - apply wrapMutationWithFilterAuth_built in H as [_ ->].
    by eapply mutationWithFilterAuth_gate.
  - apply authQueryWithFilterResolver_built in H as [_ ->]. by eapply queryWithFilter_gate.
  - apply authQueryByIdsResolver_built in H as [_ ->]. by eapply queryByIds_gate.
  - apply authQueryOneResolver_built in H as [_ ->]. by eapply queryOne_gate.
Qed.

Lemma invalid_claim_rejected_witness :
  let rp := request (VObj {[ "record" := VObj {[ "name" := VStr "x" ]} ]}) VNull in
  createAuth readme_policy (spy echo) rp (tt, [])
  = (inl (Error msg_token_required), (tt, [])).
Proof.
  intros rp.
  apply (invalid_claim_rejected echo echo readme_policy _ rp tt VNull).
  - reflexivity.
  - left. reflexivity.
  - left. reflexivity.
Defined.

(** C5: under the policy [{readAll: [], writeAll: [], readSelf: [user],
    writeSelf: [user], ownerField: "ownerId"}] and the claim
    [{subjectId: 7, roles: [user]}], the single-record query-by-id wrapper
    returns [null] when the underlying resolver returns a record whose
    [ownerId] is 9, and returns the record itself when its [ownerId] is 7. *)
Theorem query_one_scenario {W : Type} (next : Resolver W) (wrapped : Resolver W)
    (rp rp' : ResolveParams) (w w' : W) (fields : gmap string value) :
  authQueryOneResolver next (Some self_policy) = inr wrapped ->
  read (context rp) "user" = inr (claim 7 ["user"]) ->
  project_owner self_policy rp = inr rp' ->
  next rp' w = (inr (VObj fields), w') ->
  (fields !! "ownerId" = Some (VNum 9) -> wrapped rp w = (inr VNull, w'))
  /\ (fields !! "ownerId" = Some (VNum 7) -> wrapped rp w = (inr (VObj fields), w')).
Proof.
  intros H Hu Hp Hn. apply authQueryOneResolver_built in H as [_ ->].
  assert (Hq := queryOne_self self_policy next rp rp' w (claim 7 ["user"])
                  (VObj fields) w' Hu eq_refl eq_refl eq_refl Hp Hn).
  split; intros Hown; rewrite Hq; simpl;
    change (ownerKey self_policy) with "ownerId"; rewrite Hown; reflexivity.
Qed.

Lemma query_one_scenario_witness :
  let rp := request (VObj {[ "_id" := VNum 1 ]}) (claim 7 ["user"]) in
  queryOne self_policy (answer (record 1 9)) rp tt = (inr VNull, tt)
  /\ queryOne self_policy (answer (record 2 7)) rp tt = (inr (record 2 7), tt).
Proof.
  intros rp. split.
  - eapply (query_one_scenario (answer (record 1 9)) _ rp _ tt tt).
    + reflexivity.
    + reflexivity.
    + reflexivity.
    + reflexivity.
    + reflexivity.
  - eapply (query_one_scenario (answer (record 2 7)) _ rp _ tt tt).
    + reflexivity.
    + reflexivity.
    + reflexivity.
    + reflexivity.
    + reflexivity.
Defined.

(** C6, as stated, does not hold for a policy whose owner field is set to
    the empty string: the field is not unset, a self set is non-empty, and
    building a wrapper fails all the same. *)
Lemma empty_owner_field_refused :
  ~ ownerField_unset empty_field_policy
  /\ wrapCreateAuth echo (Some empty_field_policy) = inl (Error msg_wrong_config).
Proof. split; [discriminate | reflexivity]. Qed.

(** C6 (amended): building any of the seven wrappers over a policy whose
    owner field is unset or the empty string while [readSelf] or [writeSelf]
    is non-empty fails with the configuration error, and no resolver is
    returned; over every other policy it succeeds and gives the wrapped
    resolver. *)
Theorem policy_checked_when_wrapping {W : Type} (resolver find : Resolver W)
    (policy : EntityAuthConfig) :
  let refused :=
    (userIdField policy = None \/ userIdField policy = Some "")
    /\ (readSelf policy <> [] \/ writeSelf policy <> []) in
  (refused ->
     wrapCreateAuth resolver (Some policy) = inl (Error msg_wrong_config)
     /\ authMutationByIdsEach resolver (Some policy) find = inl (Error msg_wrong_config)
     /\ wrapMutationAuth resolver (Some policy) find = inl (Error msg_wrong_config)
     /\ wrapMutationWithFilterAuth resolver (Some policy) find = inl (Error msg_wrong_config)
     /\ authQueryWithFilterResolver resolver (Some policy) = inl (Error msg_wrong_config)
     /\ authQueryByIdsResolver resolver (Some policy) = inl (Error msg_wrong_config)
     /\ authQueryOneResolver resolver (Some policy) = inl (Error msg_wrong_config))
  /\ (~ refused ->
     wrapCreateAuth resolver (Some policy) = inr (createAuth policy resolver)
     /\ authMutationByIdsEach resolver (Some policy) find
        = inr (mutationByIdsEach policy find resolver)
     /\ wrapMutationAuth resolver (Some policy) find = inr (mutationAuth policy find resolver)
     /\ wrapMutationWithFilterAuth resolver (Some policy) find
        = inr (mutationWithFilterAuth policy resolver)
     /\ authQueryWithFilterResolver resolver (Some policy)
        = inr (queryWithFilter policy resolver)
     /\ authQueryByIdsResolver resolver (Some policy) = inr (queryByIds policy resolver)
     /\ authQueryOneResolver resolver (Some policy) = inr (queryOne policy resolver)).
Proof.
  intros refused. split; intros Hr.
  - apply validateAuthObject_raises in Hr.
    unfold wrapCreateAuth, authMutationByIdsEach, wrapMutationAuth,
      wrapMutationWithFilterAuth, authQueryWithFilterResolver, authQueryByIdsResolver,
      authQueryOneResolver. simpl. rewrite Hr. simpl. repeat split.
  - assert (Hok : validateAuthObject policy = inr tt).
    { destruct (validateAuthObject_cases policy) as [Hbad|Hok]; [|assumption].
      apply validateAuthObject_raises in Hbad. contradiction. }
    unfold wrapCreateAuth, authMutationByIdsEach, wrapMutationAuth,
      wrapMutationWithFilterAuth, authQueryWithFilterResolver, authQueryByIdsResolver,
      authQueryOneResolver, wrapResolve. simpl. rewrite Hok. simpl. repeat split.
Qed.

Lemma policy_checked_when_wrapping_witness :
  wrapMutationAuth echo (Some empty_field_policy) echo = inl (Error msg_wrong_config)
  /\ wrapMutationAuth echo (Some self_policy) echo = inr (mutationAuth self_policy echo echo).
Proof.
  split.
  - apply (proj1 (policy_checked_when_wrapping echo echo empty_field_policy)).
    split; [right; reflexivity | left; discriminate].
  - apply (proj2 (policy_checked_when_wrapping echo echo self_policy)).
    intros [[H | H] _]; discriminate.
Defined.

(** C8: wrapping a resolver under an absent policy gives back that very
    resolver, for each of the seven wrappers: on every request the wrapped
    operation returns what the original returns, leaves the world as the
    original leaves it, and the original is called once with the request
    parameters as they came. *)
Theorem absent_policy_passthrough {W : Type} (resolver find : Resolver W) :
  (forall wrapped,
      wrapCreateAuth resolver None = inr wrapped
      \/ authMutationByIdsEach resolver None find = inr wrapped
      \/ wrapMutationAuth resolver None find = inr wrapped
      \/ wrapMutationWithFilterAuth resolver None find = inr wrapped
      \/ authQueryWithFilterResolver resolver None = inr wrapped
      \/ authQueryByIdsResolver resolver None = inr wrapped
      \/ authQueryOneResolver resolver None = inr wrapped ->
      wrapped = resolver /\ forall rp w, wrapped rp w = resolver rp w)
  /\ (forall wrapped,
      wrapCreateAuth (spy resolver) None = inr wrapped
      \/ authMutationByIdsEach (spy resolver) None (spy find) = inr wrapped
      \/ wrapMutationAuth (spy resolver) None (spy find) = inr wrapped
      \/ wrapMutationWithFilterAuth (spy resolver) None (spy find) = inr wrapped
      \/ authQueryWithFilterResolver (spy resolver) None = inr wrapped
      \/ authQueryByIdsResolver (spy resolver) None = inr wrapped
      \/ authQueryOneResolver (spy resolver) None = inr wrapped ->
      forall rp w, wrapped rp (w, []) = (fst (resolver rp w), (snd (resolver rp w), [rp]))).
Proof.
  split.
  - intros wrapped H.
    assert (E : wrapped = resolver)
      by (destruct H as [H | [H | [H | [H | [H | [H | H]]]]]]; by injection H).
    split; [assumption | by rewrite E].
  - intros wrapped H rp w.
    assert (E : wrapped = spy resolver)
      by (destruct H as [H | [H | [H | [H | [H | [H | H]]]]]]; by injection H).
    rewrite E. apply spy_call.
Qed.

Lemma absent_policy_passthrough_witness :
  let rp := request (VObj {[ "_id" := VNum 1 ]}) VNull in
  spy echo rp (tt, []) = (inr (args rp), (tt, [rp])).
Proof.
  intros rp.
  apply (proj2 (absent_policy_passthrough echo echo) (spy echo)).
  left. reflexivity.
Defined.

(** C9: under a valid claim with the self permission but not the all
    permission (read for [authQueryWithFilterResolver], write for
    [wrapMutationWithFilterAuth]), the delegate is called once, with a
    filter whose owner-field entry is the claim's subject id whatever the
    caller put there, every other filter field, every other argument, the
    projection and the context being as the caller sent them; and two
    requests that differ only in the caller's owner-field filter value give
    the same call, the same result and the same world. *)
Theorem owner_filter_forced {W : Type} (resolver find : Resolver W)
    (policy : EntityAuthConfig) (wrapped : Resolver (W * list ResolveParams))
    (rp : ResolveParams) (w : W) (user : value) :
  read (context rp) "user" = inr user ->
  isValidJwtPayload user = true ->
  (authQueryWithFilterResolver (spy resolver) (Some policy) = inr wrapped
   /\ roles_intersect user (readSelf policy) /\ ~ roles_intersect user (readAll policy))
  \/ (wrapMutationWithFilterAuth (spy resolver) (Some policy) (unwatched find) = inr wrapped
      /\ roles_intersect user (writeSelf policy) /\ ~ roles_intersect user (writeAll policy)) ->
  (forall a f : gmap string value,
      args rp = VObj a -> a !! "filter" = Some (VObj f) ->
      exists (rp' : ResolveParams) (f' : gmap string value),
        wrapped rp (w, []) = (fst (resolver rp' w), (snd (resolver rp' w), [rp']))
        /\ prop (args rp') "filter" = VObj f'
        /\ f' !! ownerKey policy = Some (prop user "id")
        /\ (forall k, k <> ownerKey policy -> f' !! k = f !! k)
        /\ (forall k, k <> "filter" -> prop (args rp') k = prop (args rp) k)
        /\ projection rp' = projection rp
        /\ context rp' = context rp)
  /\ (forall rp2,
      same_but_owner_filter (ownerKey policy) rp rp2 ->
      wrapped rp2 (w, []) = wrapped rp (w, [])).
Proof.
  intros Hu Hv H.
  assert (Hw : forall rq, read (context rq) "user" = inr user ->
             wrapped rq (w, [])
             = match inject_owner_filter policy (prop user "id") rq with
               | inl e => (inl e, (w, []))
               | inr rq' => spy resolver rq' (w, [])
               end).
  { intros rq Hq. destruct H as [(H & Hs & Ha) | (H & Hs & Ha)].
    - apply authQueryWithFilterResolver_built in H as [_ ->].
      apply checkIfCanReadSelf_intersect in Hs. apply not_intersect_false in Ha.
      by apply queryWithFilter_self.
    - apply wrapMutationWithFilterAuth_built in H as [_ ->].
      apply checkIfCanWriteSelf_intersect in Hs. apply not_intersect_false in Ha.
      by apply mutationWithFilterAuth_self. }
  split.
  - intros a f Ha Hf.
    exists (with_args rp (VObj (<["filter" := VObj (<[ownerKey policy := prop user "id"]> f)]> a))).
    exists (<[ownerKey policy := prop user "id"]> f).
    rewrite (Hw rp Hu), (inject_owner_filter_object policy _ rp a f Ha Hf), spy_call.
    split; [reflexivity|]. simpl. rewrite lookup_insert_eq. split; [reflexivity|].
    rewrite lookup_insert_eq. split; [reflexivity|]. split.
    { intros k Hk. by rewrite lookup_insert_ne. }
    split; [|split; reflexivity].
    intros k Hk. rewrite Ha. simpl. by rewrite lookup_insert_ne.
  - intros rp2 Hsame.
    assert (Hu2 : read (context rp2) "user" = inr user).
    { destruct Hsame as (Hc & _). by rewrite <- Hc. }
    rewrite (Hw rp Hu), (Hw rp2 Hu2).
    by rewrite (inject_owner_filter_blind policy (prop user "id") rp rp2 Hsame).
Qed.

Lemma owner_filter_forced_witness :
  let ask := fun owner =>
    request (VObj {[ "filter" := VObj (<[ "ownerId" := VNum owner ]> {[ "val" := VStr "a" ]}) ]})
            (claim 7 ["user"]) in
  queryWithFilter self_policy (spy echo) (ask 9%Z) (tt, [])
  = queryWithFilter self_policy (spy echo) (ask 7%Z) (tt, []).
Proof.
  intros ask.
  apply (proj2 (owner_filter_forced echo echo self_policy
                  (queryWithFilter self_policy (spy echo)) (ask 7%Z) tt (claim 7 ["user"])
                  eq_refl eq_refl
                  (or_introl (conj eq_refl
                     (conj (proj1 (checkIfCanReadSelf_intersect (claim 7 ["user"]) self_policy)
                                  eq_refl)
                           (fun Hall =>
                              Bool.diff_false_true
                                (proj2 (checkIfCanReadAll_intersect (claim 7 ["user"])
                                          self_policy) Hall))))))).
  split; [reflexivity|]. split; [reflexivity|].
  exists {[ "filter" := VObj (<[ "ownerId" := VNum 7 ]> {[ "val" := VStr "a" ]}) ]}.
  exists {[ "filter" := VObj (<[ "ownerId" := VNum 9 ]> {[ "val" := VStr "a" ]}) ]}.
  exists (<[ "ownerId" := VNum 7 ]> {[ "val" := VStr "a" ]}).
  exists (<[ "ownerId" := VNum 9 ]> {[ "val" := VStr "a" ]}).
  repeat split.
  - intros k Hk. rewrite !lookup_singleton_ne by congruence. reflexivity.
  - intros k Hk. change (ownerKey self_policy) with "ownerId" in Hk.
    by rewrite !lookup_insert_ne.
Defined.

(** C10: in [authMutationByIdsEach] under a claim with a write-self role and
    no write-all role, the decision is taken on the records the batch fetch
    returned and on nothing else: the underlying mutation is called (once,
    with the request as it came) exactly when every returned record is owned
    by the claim's subject, whatever ids were targeted; so when the fetch
    returns no record at all, every targeted id being unknown to the store,
    the call is authorized and the underlying mutation is invoked. *)
Theorem unfetched_ids_unchecked {W : Type} (resolver find : Resolver W)
    (policy : EntityAuthConfig) (wrapped : Resolver (W * list ResolveParams))
    (rp : ResolveParams) (w w' : W) (user : value)
    (a : gmap string value) (records ids : list value) (found : list (gmap string value)) :
  authMutationByIdsEach (spy resolver) (Some policy) (unwatched find) = inr wrapped ->
  read (context rp) "user" = inr user ->
  isValidJwtPayload user = true ->
  roles_intersect user (writeSelf policy) ->
  ~ roles_intersect user (writeAll policy) ->
  args rp = VObj a ->
  a !! "records" = Some (VArr records) ->
  traverse (fun record => read record "_id") records = inr ids ->
  find (prefetch_params policy (VObj {[ "_ids" := VArr ids ]})) w
    = (inr (VArr (VObj <$> found)), w') ->
  (Forall (fun fields => owned_by (ownerKey policy) (prop user "id") fields = true) found ->
     wrapped rp (w, []) = (fst (resolver rp w'), (snd (resolver rp w'), [rp])))
  /\ (~ Forall (fun fields => owned_by (ownerKey policy) (prop user "id") fields = true) found ->
     wrapped rp (w, []) = (inl (Error msg_denied), (w', [])))
  /\ (found = [] ->
     wrapped rp (w, []) = (fst (resolver rp w'), (snd (resolver rp w'), [rp]))).
Proof.
  intros H Hu Hv Hs Ha Hargs Hrs Hids Hf.
  apply authMutationByIdsEach_built in H as [_ ->].
  apply checkIfCanWriteSelf_intersect in Hs.
  apply not_intersect_false in Ha.
  assert (Hf' : unwatched find (prefetch_params policy (VObj {[ "_ids" := VArr ids ]})) (w, [])
                = (inr (VArr (VObj <$> found)), (w', []))).
  { rewrite unwatched_call, Hf. reflexivity. }
  rewrite (mutationByIdsEach_self_fetch policy (unwatched find) (spy resolver) rp (w, [])
             user a records ids found (w', []) Hu Hv Ha Hs Hargs Hrs Hids Hf').
  split; [|split].
  - intros Hall. rewrite bool_decide_eq_true_2 by assumption. apply spy_call.
  - intros Hnot. by rewrite bool_decide_eq_false_2.
  - intros ->. rewrite bool_decide_eq_true_2 by constructor. apply spy_call.
Qed.

Lemma unfetched_ids_unchecked_witness :
  let rp := request (VObj {[ "records" := VArr [doc 41 "a"; doc 42 "b"] ]})
                    (claim 7 ["user"]) in
  mutationByIdsEach self_policy (unwatched (answer (VArr []))) (spy echo) rp (tt, [])
  = (inr (args rp), (tt, [rp])).
Proof.
  intros rp.
  refine (proj2 (proj2 (unfetched_ids_unchecked echo (answer (VArr [])) self_policy
            _ rp tt tt (claim 7 ["user"])
            {[ "records" := VArr [doc 41 "a"; doc 42 "b"] ]}
            [doc 41 "a"; doc 42 "b"] [VNum 41; VNum 42] []
            eq_refl eq_refl eq_refl _ _ eq_refl eq_refl eq_refl eq_refl)) eq_refl).
  - apply checkIfCanWriteSelf_intersect. reflexivity.
  - rewrite <- checkIfCanWriteAll_intersect. vm_compute. discriminate.
Defined.

(** ** The "update each" resolver *)

Section UpdateEach.

Context {W : Type}.
Implicit Types (model : Model W) (hook : option (Hook W)) (rp : ResolveParams).
Implicit Types (w : W) (ts : list task) (ids docs records : list value).

(** *** The checks on the input *)

Lemma check_records_refused (typeName : string) records :
  VNull ∉ records ->
  (exists record, record ∈ records /\ entry_refused record = true) ->
  check_records typeName records = inl (Error (msg_records_nonempty typeName)).
Proof.
  induction records as [|r records IH]; intros Hnull (bad & Hin & Hbad).
  - by apply elem_of_nil in Hin.
  - assert (Hr : r <> VNull) by (intros ->; apply Hnull; left).
    assert (Hrest : VNull ∉ records) by (intros Hn; apply Hnull; by right).
    simpl. destruct (negb (String.eqb (typeof r) "object")) eqn:Ety; [reflexivity|].
    apply elem_of_cons in Hin as [-> | Hin].
    + unfold entry_refused in Hbad. rewrite Ety in Hbad. simpl in Hbad.
      destruct r; try discriminate; simpl; by rewrite Hbad.
    + destruct r; try discriminate; try contradiction; simpl.
      * destruct (length items =? 0)%nat; [reflexivity | apply IH; eauto].
      * destruct (size fields =? 0)%nat; [reflexivity | apply IH; eauto].
Qed.

Lemma check_records_accepts (typeName : string) records :
  Forall record_with_field records -> check_records typeName records = inr tt.
Proof.
  induction 1 as [|r records (fields & -> & Hne) _ IH]; [reflexivity|].
  simpl. apply map_size_non_empty_iff in Hne.
  destruct (Nat.eqb_spec (size fields) 0); [contradiction | exact IH].
Qed.

(** *** Building the documents *)

Lemma build_docs_built model hook rp records w docs w' :
  build_docs model hook rp records w = (inr docs, w') ->
  Forall2 (built_from model hook rp) records docs.
Proof.
  revert w docs w'. induction records as [|r records IH]; intros w docs w'.
  - simpl. unfold ret. intros [= <- _]. constructor.
  - simpl. unfold bind at 1.
    destruct (model_new model r w) as [[e|fresh] w1] eqn:Enew; [discriminate|].
    unfold bind at 1.
    destruct (match hook with Some h => h fresh rp | None => ret fresh end w1)
      as [[e|doc] w2] eqn:Ehook; [discriminate|].
    unfold bind at 1.
    destruct (build_docs model hook rp records w2) as [[e|rest] w3] eqn:Erest;
      [discriminate|].
    unfold ret. intros [= <- _]. constructor; [|by eapply IH].
    exists w, w1, fresh. split; [assumption|].
    destruct hook as [h|].
    + by exists w2.
    + unfold ret in Ehook. by injection Ehook as <- _.
Qed.

Lemma build_docs_answers model hook rp records w :
  model_answers model hook rp ->
  exists docs w', build_docs model hook rp records w = (inr docs, w')
                  /\ Forall (fun doc => nullish doc = false) docs.
Proof.
  intros (Hnew & Hhook & _). revert w.
  induction records as [|r records IH]; intros w.
  - exists [], w. split; [reflexivity | constructor].
  - destruct (Hnew r w) as (fresh & w1 & Enew & Hfresh).
    assert (Estep : exists doc w2,
               match hook with Some h => h fresh rp | None => ret fresh end w1 = (inr doc, w2)
               /\ nullish doc = false).
    { destruct hook as [h|].
      - apply (Hhook h eq_refl).
      - by exists fresh, w1. }
    destruct Estep as (doc & w2 & Ehook & Hdoc).
    destruct (IH w2) as (rest & w3 & Erest & Hrest).
    exists (doc :: rest), w3. split; [|by constructor].
    simpl. unfold bind at 1. rewrite Enew. unfold bind at 1. rewrite Ehook.
    unfold bind at 1. rewrite Erest. reflexivity.
Qed.

Lemma traverse_each {A B : Type} (f : A -> exn + B) (l : list A) (l' : list B) :
  traverse f l = inr l' -> Forall2 (fun x y => f x = inr y) l l'.
Proof.
  revert l'. induction l as [|x l IH]; intros l'; simpl.
  - intros [= <-]. constructor.
  - destruct (f x) as [e|y] eqn:Ex; [discriminate|].
    destruct (traverse f l) as [e|ys]; [discriminate|].
    intros [= <-]. constructor; [assumption | by apply IH].
Qed.

Lemma traverse_ids docs :
  Forall (fun doc => nullish doc = false) docs ->
  exists ids, traverse (fun doc => read doc "_id") docs = inr ids.
Proof.
  induction 1 as [|doc docs Hdoc _ (ids & IH)]; [by exists []|].
  exists (prop doc "_id" :: ids). simpl. unfold read at 1. by rewrite Hdoc, IH.
Qed.

(** *** The callbacks *)

Lemma step_task_for model id (t t' : task) w w' :
  step model t w = (inr t', w') -> task_for model id t -> task_for model id t'.
Proof.
  destruct t as [id' doc | id' | r]; simpl; unfold bind, ret.
  - destruct (findByIdAndUpdate model id' doc w) as [[e|r] w1]; [discriminate|].
    by intros [= <- _].
  - destruct (findById model id' w) as [[e|r] w1] eqn:E; [discriminate|].
    intros [= <- _] ->. by exists w, w1.
  - by intros [= <- _].
Qed.

Lemma step_twice_fulfilled model (t t1 t2 : task) w w1 w2 :
  step model t w = (inr t1, w1) -> step model t1 w1 = (inr t2, w2) ->
  exists r, t2 = Fulfilled r.
Proof.
  destruct t as [id doc | id | r]; simpl; unfold bind, ret.
  - destruct (findByIdAndUpdate model id doc w) as [[e|r] w']; [discriminate|].
    intros [= <- <-]. simpl. unfold bind, ret.
    destruct (findById model id w') as [[e|r'] w'']; [discriminate|].
    intros [= <- _]. eauto.
  - destruct (findById model id w) as [[e|r] w']; [discriminate|].
    intros [= <- <-]. simpl. unfold ret. intros [= <- _]. eauto.
  - intros [= <- <-]. simpl. unfold ret. intros [= <- _]. eauto.
Qed.

Lemma step_answers model hook rp (t : task) w :
  model_answers model hook rp -> exists t' w', step model t w = (inr t', w').
Proof.
  intros (_ & _ & Hupd & Hfind).
  destruct t as [id doc | id | r]; simpl; unfold bind, ret.
  - destruct (Hupd id doc w) as (r & w' & ->). eauto.
  - destruct (Hfind id w) as (r & w' & ->). eauto.
  - eauto.
Qed.

Lemma drain_refetched model ids ts w ts' w' :
  drain model ts w = (inr ts', w') ->
  Forall2 (task_for model) ids ts ->
  Forall2 (refetched model) ids (task_record <$> ts').
Proof.
  intros Hrun Hinv. revert w ts' w' Hrun.
  induction Hinv as [|id t ids ts Ht _ IH]; intros w ts' w'; simpl.
  - unfold ret. intros [= <- _]. constructor.
  - unfold bind at 1. destruct (step model t w) as [[e|t1] w1] eqn:E1; [discriminate|].
    unfold bind at 1. destruct (step model t1 w1) as [[e|t2] w2] eqn:E2; [discriminate|].
    unfold bind at 1. destruct (drain model ts w2) as [[e|rest] w3] eqn:E3; [discriminate|].
    unfold ret. intros [= <- _]. rewrite fmap_cons. constructor; [|by eapply IH].
    destruct (step_twice_fulfilled _ _ _ _ _ _ _ E1 E2) as (r & ->).
    apply (step_task_for _ id) in E1; [|assumption].
    apply (step_task_for _ id) in E2; [|assumption].
    exact E2.
Qed.

Lemma drain_answers model hook rp ts w :
  model_answers model hook rp -> exists ts' w', drain model ts w = (inr ts', w').
Proof.
  intros Hm. revert w. induction ts as [|t ts IH]; intros w; simpl.
  - unfold ret. eauto.
  - destruct (step_answers model hook rp t w Hm) as (t1 & w1 & E1).
    destruct (step_answers model hook rp t1 w1 Hm) as (t2 & w2 & E2).
    destruct (IH w2) as (rest & w3 & E3).
    unfold bind at 1. rewrite E1. unfold bind at 1. rewrite E2.
    unfold bind at 1. rewrite E3. unfold ret. eauto.
Qed.

Lemma run_tasks_refetched model (sched : list nat) ids ts w ts' w' :
  run_tasks model sched ts w = (inr ts', w') ->
  Forall2 (task_for model) ids ts ->
  Forall2 (refetched model) ids (task_record <$> ts').
Proof.
  revert ts w. induction sched as [|i sched IH]; intros ts w; simpl.
  - apply drain_refetched.
  - destruct (ts !! i) as [t|] eqn:Et; [|apply IH].
    unfold bind. destruct (step model t w) as [[e|t1] w1] eqn:E1; [discriminate|].
    intros Hrun Hinv. apply (IH _ _ Hrun).
    destruct (Forall2_lookup_r _ _ _ _ _ Hinv Et) as (id & Hid & Ht).
    rewrite <- (list_insert_id ids i id Hid).
    apply Forall2_insert; [assumption|]. by eapply step_task_for.
Qed.

Lemma run_tasks_answers model hook rp (sched : list nat) ts w :
  model_answers model hook rp -> exists ts' w', run_tasks model sched ts w = (inr ts', w').
Proof.
  intros Hm. revert ts w. induction sched as [|i sched IH]; intros ts w; simpl.
  - by eapply drain_answers.
  - destruct (ts !! i) as [t|]; [|apply IH].
    destruct (step_answers model hook rp t w Hm) as (t1 & w1 & E1).
    unfold bind. rewrite E1. apply IH.
Qed.

Lemma tasks_start model ids docs :
  length ids = length docs -> Forall2 (task_for model) ids (zip_with Updating ids docs).
Proof.
  revert docs. induction ids as [|id ids IH]; intros [|doc docs]; simpl;
    try discriminate; intros Hlen; constructor.
  - reflexivity.
  - apply IH. congruence.
Qed.

End UpdateEach.

(** C4, as stated, does not hold for a record that is empty aside from its
    id: the input [[{_id: 1}]] is not a list of records with an id and one
    other field, yet it is not rejected; the resolver goes to the store and
    answers with the stored document. *)
Lemma id_only_record_accepted :
  let records := [VObj {[ "_id" := VNum 1 ]}] in
  batch_input_ok (VArr records) = false
  /\ updateByIdEach "Item" collection [] None (batch records) two_docs
     = (inr (VObj (<[ "records" := VArr [doc 1 "old"] ]> {[ "updatedCount" := VNum 1 ]})),
        two_docs).
Proof. split; vm_compute; reflexivity. Qed.

(** C4 (amended): the "update each" resolver rejects, with its
    "requires args.records to be an Array and must contain at least one
    record" error, every [args.records] that is not an array or is the empty
    list, and, with its "requires args.records to contain non-empty records"
    error, every list without a [null] entry in which some entry is not of
    type object or is an object with no field at all (a record holding
    nothing but its id is not such an entry); in both cases before any call
    to the model: the world is untouched. *)
Theorem malformed_batch_rejected {W : Type} (typeName : string) (model : Model W)
    (sched : list nat) (beforeRecordMutate : option (Hook W))
    (rp : ResolveParams) (w : W) :
  let recordData := read_opt (args rp) "records" in
  (isArray recordData = false \/ recordData = VArr [] ->
     updateByIdEach typeName model sched beforeRecordMutate rp w
     = (inl (Error (msg_records_required typeName)), w))
  /\ (forall records,
        recordData = VArr records ->
        records <> [] ->
        VNull ∉ records ->
        (exists record, record ∈ records /\ entry_refused record = true) ->
        updateByIdEach typeName model sched beforeRecordMutate rp w
        = (inl (Error (msg_records_nonempty typeName)), w)).
Proof.
  intros recordData. split.
  - intros H. unfold updateByIdEach. fold recordData.
    destruct H as [H | H]; rewrite H; reflexivity.
  - intros records H Hne Hnull Hbad. unfold updateByIdEach. fold recordData.
    rewrite H. simpl. destruct records as [|r records]; [contradiction|].
    cbn [length Nat.eqb]. unfold bind at 1.
    rewrite (check_records_refused typeName (r :: records) Hnull Hbad). reflexivity.
Qed.

Lemma malformed_batch_rejected_witness :
  updateByIdEach "Item" collection [] None (batch []) two_docs
  = (inl (Error (msg_records_required "Item")), two_docs)
  /\ updateByIdEach "Item" collection [] None (batch [doc 1 "a"; VObj ∅]) two_docs
     = (inl (Error (msg_records_nonempty "Item")), two_docs).
Proof.
  split.
  - apply (proj1 (malformed_batch_rejected "Item" collection [] None (batch []) two_docs)).
    right. reflexivity.
  - apply (proj2 (malformed_batch_rejected "Item" collection [] None
                    (batch [doc 1 "a"; VObj ∅]) two_docs) [doc 1 "a"; VObj ∅]).
    + reflexivity.
    + discriminate.
    + intros Hin. apply elem_of_cons in Hin as [Hin | Hin]; [discriminate|].
      apply elem_of_cons in Hin as [Hin | Hin]; [discriminate|].
      by apply elem_of_nil in Hin.
    + exists (VObj ∅). split; [|reflexivity]. right. left.
Defined.

(** C7: for a non-empty list of records that pass the checks, and whatever
    the order in which the store completes the pending calls, the "update
    each" resolver returns, as soon as the model answers its calls, an object
    [{records, updatedCount}] in which [updatedCount] is the length of the
    input, whatever the updates changed in the store, and [records] has as
    many entries as the input, the i-th being what the re-fetch answered for
    the id of the document built from the i-th input record. *)
Theorem update_each_result {W : Type} (typeName : string) (model : Model W)
    (sched : list nat) (beforeRecordMutate : option (Hook W))
    (rp : ResolveParams) (w : W) (records : list value) :
  read_opt (args rp) "records" = VArr records ->
  records <> [] ->
  Forall record_with_field records ->
  (model_answers model beforeRecordMutate rp ->
     exists result w',
       updateByIdEach typeName model sched beforeRecordMutate rp w = (inr result, w'))
  /\ (forall result w',
        updateByIdEach typeName model sched beforeRecordMutate rp w = (inr result, w') ->
        exists docs ids updated : list value,
          result = VObj (<[ "records" := VArr updated ]>
                           {[ "updatedCount" := VNum (Z.of_nat (length records)) ]})
          /\ length updated = length records
          /\ Forall2 (built_from model beforeRecordMutate rp) records docs
          /\ Forall2 (fun doc id => read doc "_id" = inr id) docs ids
          /\ Forall2 (refetched model) ids updated).
Proof.
  intros Hdata Hne Hvalid.
  assert (Hrun : updateByIdEach typeName model sched beforeRecordMutate rp w
                 = (docs <- build_docs model beforeRecordMutate rp records ;;
                    ids <- lift (traverse (fun doc => read doc "_id") docs) ;;
                    settled <- run_tasks model sched (zip_with Updating ids docs) ;;
                    ret (VObj (<[ "records" := VArr (task_record <$> settled) ]>
                                {[ "updatedCount" := VNum (Z.of_nat (length docs)) ]}))) w).
  { unfold updateByIdEach. rewrite Hdata. simpl.
    destruct records as [|r records]; [contradiction|]. cbn [length Nat.eqb].
    unfold bind at 1. rewrite (check_records_accepts typeName _ Hvalid). reflexivity. }
  rewrite Hrun. clear Hrun. split.
  - intros Hm.
    destruct (build_docs_answers model beforeRecordMutate rp records w Hm)
      as (docs & w1 & Edocs & Hdocs).
    destruct (traverse_ids docs Hdocs) as (ids & Eids).
    destruct (run_tasks_answers model beforeRecordMutate rp sched
                (zip_with Updating ids docs) w1 Hm) as (ts' & w2 & Erun).
    unfold bind at 1. rewrite Edocs. unfold bind at 1, lift. rewrite Eids.
    unfold ret at 1. unfold bind. rewrite Erun. unfold ret. eauto.
  - intros result w'. unfold bind at 1.
    destruct (build_docs model beforeRecordMutate rp records w) as [[e|docs] w1] eqn:Edocs;
      [discriminate|].
    unfold bind at 1, lift.
    destruct (traverse (fun doc => read doc "_id") docs) as [e|ids] eqn:Eids;
      [discriminate|].
    unfold ret at 1. unfold bind.
    destruct (run_tasks model sched (zip_with Updating ids docs) w1) as [[e|ts'] w2] eqn:Erun;
      [discriminate|].
    unfold ret. intros [= <- _].
    apply build_docs_built in Edocs. apply traverse_each in Eids.
    assert (Hlen1 := Forall2_length _ _ _ Edocs).
    assert (Hlen2 := Forall2_length _ _ _ Eids).
    assert (Hupd : Forall2 (refetched model) ids (task_record <$> ts')).
    { eapply run_tasks_refetched; [exact Erun|]. apply tasks_start. congruence. }
    assert (Hlen3 := Forall2_length _ _ _ Hupd).
    exists docs, ids, (task_record <$> ts'). rewrite <- Hlen1.
    split; [reflexivity|]. split; [congruence|]. auto.
Qed.

Lemma update_each_result_witness :
  let rp := batch [doc 1 "a"; doc 2 "b"] in
  let sched := [1; 0; 1]%nat in
  (exists result w',
      updateByIdEach "Item" collection sched None rp two_docs = (inr result, w'))
  /\ (exists docs ids updated : list value,
        VObj (<[ "records" := VArr [doc 1 "a"; doc 2 "b"] ]> {[ "updatedCount" := VNum 2 ]})
        = VObj (<[ "records" := VArr updated ]> {[ "updatedCount" := VNum (Z.of_nat 2) ]})
        /\ length updated = 2%nat
        /\ Forall2 (built_from collection None rp) [doc 1 "a"; doc 2 "b"] docs
        /\ Forall2 (fun doc id => read doc "_id" = inr id) docs ids
        /\ Forall2 (refetched collection) ids updated).
Proof.
  intros rp sched.
  assert (Hvalid : Forall record_with_field [doc 1 "a"; doc 2 "b"]).
  { repeat constructor; eexists; (split; [reflexivity|]);
      intros H; apply (f_equal (fun m => m !! "_id")) in H; vm_compute in H; discriminate. }
  destruct (update_each_result "Item" collection sched None rp two_docs
              [doc 1 "a"; doc 2 "b"] eq_refl ltac:(discriminate) Hvalid) as [Hreturns Hshape].
  split.
  - apply Hreturns. repeat split.
    + intros record w. eexists _, w. split; [reflexivity|]. by destruct record.
    + intros hook H. discriminate.
    + intros id changes w. unfold collection, findByIdAndUpdate, collection_update.
      destruct id, changes; eauto. destruct (w !! n) as [[]|]; eauto.
    + intros id w. unfold collection, findById, collection_find. destruct id; eauto.
  - apply (Hshape _ (<[ 1%Z := doc 1 "a" ]> {[ 2%Z := doc 2 "b" ]})).
    vm_compute. reflexivity.
Defined.

(** * Further properties of the code *)

(** ** The permission evaluator and the identity validator *)

(** X1: each of the four permission checks holds exactly when one of the
    roles the claim carries is in the policy's role set for that check:
    matching is by exact string, and neither the order nor the repetition
    of roles, on either side, matters. *)
Theorem permission_checks_are_role_intersections (claim : value)
    (policy : EntityAuthConfig) :
  (checkIfCanReadAll claim policy = true <-> roles_intersect claim (readAll policy))
  /\ (checkIfCanWriteAll claim policy = true <-> roles_intersect claim (writeAll policy))
  /\ (checkIfCanReadSelf claim policy = true <-> roles_intersect claim (readSelf policy))
  /\ (checkIfCanWriteSelf claim policy = true <-> roles_intersect claim (writeSelf policy)).
Proof. repeat split; apply intersection_nonempty. Qed.

(** X2: [isValidJwtPayload] accepts exactly the objects that have a truthy
    [id] and a [permissions] array all of whose items are strings; the
    array may be empty. *)
Theorem valid_claim_shape (claim : value) :
  isValidJwtPayload claim = true
  <-> exists (fields : gmap string value) (id : value) (roles : list string),
        claim = VObj fields
        /\ fields !! "id" = Some id /\ truthy id = true
        /\ fields !! "permissions" = Some (VArr (VStr <$> roles)).
Proof.
  unfold isValidJwtPayload. split.
  - destruct (truthy claim) eqn:Ht; simpl; [|discriminate].
    intros H. apply andb_prop in H as [Hid Hroles].
    apply isArrayOfStrings_roles in Hroles as (roles & Hroles).
    destruct claim as [| | | | | items | fields]; simpl in *; try discriminate.
    destruct (fields !! "id") as [id|] eqn:Eid; simpl in Hid; [|discriminate].
    destruct (fields !! "permissions") as [p|] eqn:Ep; simpl in Hroles; [|discriminate].
    exists fields, id, roles. subst p. auto.
  - intros (fields & id & roles & -> & Hid & Ht & Hp). simpl.
    rewrite Hid, Hp. simpl. rewrite Ht. simpl.
    apply isArrayOfStrings_roles. eauto.
Qed.

(** ** Requests the wrappers refuse or pass on *)

Section MoreRequests.

Context {W : Type}.
Implicit Types (resolver next find : Resolver W) (policy : EntityAuthConfig).
Implicit Types (rp : ResolveParams) (w : W) (user : value).

Lemma createAuth_no_permission policy next rp w user :
  read (context rp) "user" = inr user -> isValidJwtPayload user = true ->
  checkIfCanWriteAll user policy = false -> checkIfCanWriteSelf user policy = false ->
  createAuth policy next rp w = (inl (Error msg_cannot_create), w).
Proof.
  intros Hu Hv Ha Hs. unfold createAuth. run_async. rewrite Hu. simpl.
  by rewrite Hv, Ha, Hs.
Qed.

Lemma mutationByIdsEach_no_permission policy find next rp w user :
  read (context rp) "user" = inr user -> isValidJwtPayload user = true ->
  checkIfCanWriteAll user policy = false -> checkIfCanWriteSelf user policy = false ->
  mutationByIdsEach policy find next rp w = (inl (Error msg_cannot_see), w).
Proof.
  intros Hu Hv Ha Hs. unfold mutationByIdsEach. run_async. rewrite Hu. simpl.
  by rewrite Hv, Ha, Hs.
Qed.

Lemma mutationAuth_no_permission policy find next rp w user :
  read (context rp) "user" = inr user -> isValidJwtPayload user = true ->
  checkIfCanWriteAll user policy = false -> checkIfCanWriteSelf user policy = false ->
  mutationAuth policy find next rp w = (inl (Error msg_cannot_see), w).
Proof.
  intros Hu Hv Ha Hs. unfold mutationAuth. run_async. rewrite Hu. simpl.
  by rewrite Hv, Ha, Hs.
Qed.

Lemma mutationWithFilterAuth_no_permission policy next rp w user :
  read (context rp) "user" = inr user -> isValidJwtPayload user = true ->
  checkIfCanWriteAll user policy = false -> checkIfCanWriteSelf user policy = false ->
  mutationWithFilterAuth policy next rp w = (inl (Error msg_cannot_see), w).
Proof.
  intros Hu Hv Ha Hs. unfold mutationWithFilterAuth. run_async. rewrite Hu. simpl.
  by rewrite Hv, Ha, Hs.
Qed.

Lemma queryWithFilter_no_permission policy next rp w user :
  read (context rp) "user" = inr user -> isValidJwtPayload user = true ->
  checkIfCanReadAll user policy = false -> checkIfCanReadSelf user policy = false ->
  queryWithFilter policy next rp w = (inl (Error msg_cannot_see), w).
Proof.
  intros Hu Hv Ha Hs. unfold queryWithFilter. run_async. rewrite Hu. simpl.
  by rewrite Hv, Ha, Hs.
Qed.

Lemma queryByIds_no_permission policy next rp w user :
  read (context rp) "user" = inr user -> isValidJwtPayload user = true ->
  checkIfCanReadAll user policy = false -> checkIfCanReadSelf user policy = false ->
  queryByIds policy next rp w = (inl (Error msg_cannot_see), w).
Proof.
  intros Hu Hv Ha Hs. unfold queryByIds. run_async. rewrite Hu. simpl.
  by rewrite Hv, Ha, Hs.
Qed.

Lemma queryOne_no_permission policy next rp w user :
  read (context rp) "user" = inr user -> isValidJwtPayload user = true ->
  checkIfCanReadAll user policy = false -> checkIfCanReadSelf user policy = false ->
  queryOne policy next rp w = (inl (Error msg_cannot_see), w).
Proof.
  intros Hu Hv Ha Hs. unfold queryOne. run_async. rewrite Hu. simpl.
  by rewrite Hv, Ha, Hs.
Qed.

Lemma queryWithFilter_all policy next rp w user :
  read (context rp) "user" = inr user -> isValidJwtPayload user = true ->
  checkIfCanReadAll user policy = true ->
  queryWithFilter policy next rp w = next rp w.
Proof.
  intros Hu Hv Ha. unfold queryWithFilter. run_async. rewrite Hu. simpl. by rewrite Hv, Ha.
Qed.

Lemma queryByIds_all policy next rp w user :
  read (context rp) "user" = inr user -> isValidJwtPayload user = true ->
  checkIfCanReadAll user policy = true ->
  queryByIds policy next rp w = next rp w.
Proof.
  intros Hu Hv Ha. unfold queryByIds. run_async. rewrite Hu. simpl. by rewrite Hv, Ha.
Qed.

Lemma queryOne_all policy next rp w user :
  read (context rp) "user" = inr user -> isValidJwtPayload user = true ->
  checkIfCanReadAll user policy = true ->
  queryOne policy next rp w = next rp w.
Proof.
  intros Hu Hv Ha. unfold queryOne. run_async. rewrite Hu. simpl. by rewrite Hv, Ha.
Qed.

End MoreRequests.

(** X3: a valid claim none of whose roles is in the policy's all set or
    self set for the kind of operation is refused by every wrapper, with
    "You don't have permission to create this entity." by the create
    wrapper and "You don't have permission to see this entity." by the six
    others (the mutation wrappers included), and neither the delegate nor
    the pre-fetch resolver has been called. *)
Theorem unpermitted_claim_refused {W : Type} (resolver find : Resolver W)
    (policy : EntityAuthConfig) (wrapped : Resolver (W * list ResolveParams))
    (rp : ResolveParams) (w : W) (user : value) :
  read (context rp) "user" = inr user ->
  isValidJwtPayload user = true ->
  (~ roles_intersect user (writeAll policy) -> ~ roles_intersect user (writeSelf policy) ->
     (wrapCreateAuth (spy resolver) (Some policy) = inr wrapped ->
        wrapped rp (w, []) = (inl (Error msg_cannot_create), (w, [])))
     /\ (authMutationByIdsEach (spy resolver) (Some policy) (spy find) = inr wrapped
         \/ wrapMutationAuth (spy resolver) (Some policy) (spy find) = inr wrapped
         \/ wrapMutationWithFilterAuth (spy resolver) (Some policy) (spy find) = inr wrapped ->
         wrapped rp (w, []) = (inl (Error msg_cannot_see), (w, []))))
  /\ (~ roles_intersect user (readAll policy) -> ~ roles_intersect user (readSelf policy) ->
      authQueryWithFilterResolver (spy resolver) (Some policy) = inr wrapped
      \/ authQueryByIdsResolver (spy resolver) (Some policy) = inr wrapped
      \/ authQueryOneResolver (spy resolver) (Some policy) = inr wrapped ->
      wrapped rp (w, []) = (inl (Error msg_cannot_see), (w, []))).
Proof.
  intros Hu Hv. split.
  - intros Ha Hs. apply not_intersect_false in Ha. apply not_intersect_false in Hs. split.
    + intros H. apply wrapCreateAuth_built in H as [_ ->].
      by eapply createAuth_no_permission.
    + intros [H | [H | H]].
      * apply authMutationByIdsEach_built in H as [_ ->].
        by eapply mutationByIdsEach_no_permission.
      * apply wrapMutationAuth_built in H as [_ ->]. by eapply mutationAuth_no_permission.
      * apply wrapMutationWithFilterAuth_built in H as [_ ->].
        by eapply mutationWithFilterAuth_no_permission.
  - intros Ha Hs [H | [H | H]];
      apply not_intersect_false in Ha; apply not_intersect_false in Hs.
    + apply authQueryWithFilterResolver_built in H as [_ ->].
      by eapply queryWithFilter_no_permission.
    + apply authQueryByIdsResolver_built in H as [_ ->]. by eapply queryByIds_no_permission.
    + apply authQueryOneResolver_built in H as [_ ->]. by eapply queryOne_no_permission.
Qed.

Lemma unpermitted_claim_refused_witness :
  let rp := request (VObj {[ "_id" := VNum 1 ]}) (claim 7 ["guest"]) in
  queryOne readme_policy (spy echo) rp (tt, []) = (inl (Error msg_cannot_see), (tt, [])).
Proof.
  intros rp.
  apply (proj2 (unpermitted_claim_refused echo echo readme_policy _ rp tt (claim 7 ["guest"])
                  eq_refl eq_refl)).
  - rewrite <- checkIfCanReadAll_intersect. vm_compute. discriminate.
  - rewrite <- checkIfCanReadSelf_intersect. vm_compute. discriminate.
  - right. right. reflexivity.
Defined.

(** X4: for a valid claim with a role in [readAll], the three query
    wrappers call the delegate once with the request as it came and return
    its answer as it is: no owner filter, no owner projection, no filtering
    of the result. *)
Theorem read_all_delegation {W : Type} (resolver : Resolver W)
    (policy : EntityAuthConfig) (wrapped : Resolver (W * list ResolveParams))
    (rp : ResolveParams) (w : W) (user : value) :
  read (context rp) "user" = inr user ->
  isValidJwtPayload user = true ->
  roles_intersect user (readAll policy) ->
  authQueryWithFilterResolver (spy resolver) (Some policy) = inr wrapped
  \/ authQueryByIdsResolver (spy resolver) (Some policy) = inr wrapped
  \/ authQueryOneResolver (spy resolver) (Some policy) = inr wrapped ->
  wrapped rp (w, []) = (fst (resolver rp w), (snd (resolver rp w), [rp])).
Proof.
  intros Hu Hv Ha H. apply checkIfCanReadAll_intersect in Ha.
  destruct H as [H | [H | H]].
  - apply authQueryWithFilterResolver_built in H as [_ ->].
    rewrite (queryWithFilter_all _ _ _ _ user) by assumption. apply spy_call.
  - apply authQueryByIdsResolver_built in H as [_ ->].
    rewrite (queryByIds_all _ _ _ _ user) by assumption. apply spy_call.
  - apply authQueryOneResolver_built in H as [_ ->].
    rewrite (queryOne_all _ _ _ _ user) by assumption. apply spy_call.
Qed.

Lemma read_all_delegation_witness :
  let rp := request (VObj {[ "_ids" := VArr [VNum 1; VNum 2] ]}) (claim 7 ["admin"]) in
  queryByIds readme_policy (spy echo) rp (tt, []) = (inr (args rp), (tt, [rp])).
Proof.
  intros rp.
  apply (read_all_delegation echo readme_policy _ rp tt (claim 7 ["admin"])).
  - reflexivity.
  - reflexivity.
  - apply checkIfCanReadAll_intersect. reflexivity.
  - right. left. reflexivity.
Defined.

(** ** Self-scoped reads by id *)

Lemma project_owner_object policy rp (p : gmap string value) :
  projection rp = VObj p ->
  project_owner policy rp
  = inr (if truthy (default VUndefined (p !! ownerKey policy)) then rp
         else with_projection rp (VObj (<[ownerKey policy := VObj ∅]> p))).
Proof.
  intros Hp. unfold project_owner, read, write, ebind. rewrite Hp. simpl.
  destruct (truthy (default VUndefined (p !! ownerKey policy))); reflexivity.
Qed.

Lemma project_owner_inv policy rp rp' :
  project_owner policy rp = inr rp' ->
  (truthy (prop (projection rp) (ownerKey policy)) = true /\ rp' = rp)
  \/ (exists p : gmap string value,
        projection rp = VObj p
        /\ truthy (default VUndefined (p !! ownerKey policy)) = false
        /\ rp' = with_projection rp (VObj (<[ownerKey policy := VObj ∅]> p))).
Proof.
  unfold project_owner, read, ebind.
  destruct (nullish (projection rp)) eqn:En; [discriminate|].
  destruct (truthy (prop (projection rp) (ownerKey policy))) eqn:Et; simpl.
  - intros [= <-]. by left.
  - unfold write. destruct (projection rp) as [| | | | | |p] eqn:Ep; try discriminate.
    intros [= <-]. right. exists p. auto.
Qed.

(** X7: when the owner field is put into the projection, it is the only
    thing that changes: arguments and context are kept, every other
    projection entry is kept, the owner entry is truthy afterwards, a
    projection that already asks for the owner field is left as it is, and
    doing it twice is doing it once.  On a projection that is an object it
    always succeeds. *)
Theorem owner_projection_only (policy : EntityAuthConfig) (rp rp' : ResolveParams) :
  (project_owner policy rp = inr rp' ->
     args rp' = args rp /\ context rp' = context rp
     /\ truthy (prop (projection rp') (ownerKey policy)) = true
     /\ (forall k, k <> ownerKey policy ->
           prop (projection rp') k = prop (projection rp) k)
     /\ (truthy (prop (projection rp) (ownerKey policy)) = true -> rp' = rp)
     /\ project_owner policy rp' = inr rp')
  /\ ((exists p : gmap string value, projection rp = VObj p) ->
      exists rp'', project_owner policy rp = inr rp'').
Proof.
  split.
  - intros H. destruct (project_owner_inv _ _ _ H) as [[Ht ->] | (p & Hp & Ht & ->)].
    + repeat split; auto.
    + simpl. rewrite lookup_insert_eq. repeat split; auto.
      * intros k Hk. rewrite Hp. simpl. by rewrite lookup_insert_ne.
      * intros Ht'. rewrite Hp in Ht'. simpl in Ht'. congruence.
      * rewrite (project_owner_object policy
                   (with_projection rp (VObj (<[ownerKey policy := VObj ∅]> p)))
                   (<[ownerKey policy := VObj ∅]> p) eq_refl).
        by rewrite lookup_insert_eq.
  - intros (p & Hp). rewrite (project_owner_object policy rp p Hp). eauto.
Qed.

Lemma owner_projection_only_witness :
  let rp := request (VObj {[ "_id" := VNum 1 ]}) (claim 7 ["user"]) in
  let rp' := with_projection rp (VObj {[ "ownerId" := VObj ∅ ]}) in
  project_owner self_policy rp' = inr rp'.
Proof.
  intros rp rp'.
  apply (proj1 (owner_projection_only self_policy rp rp') eq_refl).
Defined.

Lemma queryByIds_self {W : Type} (policy : EntityAuthConfig) (next : Resolver W)
    (rp rp' : ResolveParams) (w w' : W) (user result : value) :
  read (context rp) "user" = inr user -> isValidJwtPayload user = true ->
  checkIfCanReadAll user policy = false ->
  checkIfCanReadSelf user policy = true ->
  project_owner policy rp = inr rp' ->
  next rp' w = (inr result, w') ->
  queryByIds policy next rp w
  = match ebind (array_items result) (filter_owned (ownerKey policy) (prop user "id")) with
    | inl e => (inl e, w')
    | inr kept => (inr (VArr kept), w')
    end.
Proof.
  intros Hu Hv Ha Hs Hp Hn. unfold queryByIds. run_async.
  rewrite Hu. simpl. rewrite Hv, Ha, Hs. simpl. rewrite Hp. simpl. rewrite Hn.
  destruct (array_items result) as [e|items]; simpl; [reflexivity|].
  destruct (filter_owned (ownerKey policy) (prop user "id") items); reflexivity.
Qed.

(** X5: under a valid claim with a read-self role and no read-all role,
    the query-by-ids wrapper asks the delegate once, with the owner field
    added to the projection, and answers with the records of the delegate's
    answer that the claim's subject owns, in the order the delegate gave
    them; the records of other owners are dropped without an error.  An
    answer that is not an array ([null], say) is a [TypeError]. *)
Theorem query_by_ids_keeps_owned {W : Type} (resolver : Resolver W)
    (policy : EntityAuthConfig) (wrapped : Resolver (W * list ResolveParams))
    (rp rp' : ResolveParams) (w w' : W) (user result : value) :
  authQueryByIdsResolver (spy resolver) (Some policy) = inr wrapped ->
  read (context rp) "user" = inr user ->
  isValidJwtPayload user = true ->
  roles_intersect user (readSelf policy) ->
  ~ roles_intersect user (readAll policy) ->
  project_owner policy rp = inr rp' ->
  resolver rp' w = (inr result, w') ->
  (forall records : list (gmap string value),
      result = VArr (VObj <$> records) ->
      wrapped rp (w, [])
      = (inr (VArr (VObj <$> filter (fun fields =>
                      owned_by (ownerKey policy) (prop user "id") fields = true) records)),
         (w', [rp'])))
  /\ (isArray result = false -> wrapped rp (w, []) = (inl TypeError, (w', [rp']))).
Proof.
  intros H Hu Hv Hs Ha Hp Hn.
  apply authQueryByIdsResolver_built in H as [_ ->].
  apply checkIfCanReadSelf_intersect in Hs. apply not_intersect_false in Ha.
  assert (Hn' : spy resolver rp' (w, []) = (inr result, (w', [rp']))).
  { rewrite spy_call, Hn. reflexivity. }
  rewrite (queryByIds_self policy (spy resolver) rp rp' (w, []) (w', [rp']) user result
             Hu Hv Ha Hs Hp Hn').
  split.
  - intros records ->. simpl. by rewrite filter_owned_records.
  - intros Harr. destruct result; try discriminate; reflexivity.
Qed.

Lemma query_by_ids_keeps_owned_witness :
  let rp := request (VObj {[ "_ids" := VArr [VNum 1; VNum 2; VNum 3] ]}) (claim 7 ["user"]) in
  let rp' := with_projection rp (VObj {[ "ownerId" := VObj ∅ ]}) in
  queryByIds self_policy (spy (answer (VArr [record 1 7; record 2 9; record 3 7]))) rp (tt, [])
  = (inr (VArr [record 1 7; record 3 7]), (tt, [rp'])).
Proof.
  intros rp rp'.
  refine (proj1 (query_by_ids_keeps_owned
            (answer (VArr [record 1 7; record 2 9; record 3 7])) self_policy _ rp rp' tt tt
            (claim 7 ["user"]) _ eq_refl eq_refl eq_refl _ _ eq_refl eq_refl)
          [ <[ "id" := VNum 1 ]> {[ "ownerId" := VNum 7 ]};
            <[ "id" := VNum 2 ]> {[ "ownerId" := VNum 9 ]};
            <[ "id" := VNum 3 ]> {[ "ownerId" := VNum 7 ]} ] eq_refl).
  - apply checkIfCanReadSelf_intersect. reflexivity.
  - rewrite <- checkIfCanReadAll_intersect. vm_compute. discriminate.
Defined.

(** X6: under a valid claim with a read-self role and no read-all role,
    the query-by-id wrapper asks the delegate once, with the owner field in
    the projection, and never answers with a record of another owner: its
    answer is [null], or the delegate's record and then the record's owner
    field is the claim's subject id; a falsy answer of the delegate (no
    record found) gives [null]. *)
Theorem query_one_never_leaks {W : Type} (resolver : Resolver W)
    (policy : EntityAuthConfig) (wrapped : Resolver (W * list ResolveParams))
    (rp rp' : ResolveParams) (w w' : W) (user result : value) :
  authQueryOneResolver (spy resolver) (Some policy) = inr wrapped ->
  read (context rp) "user" = inr user ->
  isValidJwtPayload user = true ->
  roles_intersect user (readSelf policy) ->
  ~ roles_intersect user (readAll policy) ->
  project_owner policy rp = inr rp' ->
  resolver rp' w = (inr result, w') ->
  exists answer : value,
    wrapped rp (w, []) = (inr answer, (w', [rp']))
    /\ (answer = VNull
        \/ (answer = result /\ prop result (ownerKey policy) = prop user "id"))
    /\ (truthy result = false -> answer = VNull)
    /\ (prop result (ownerKey policy) <> prop user "id" -> answer = VNull).
Proof.
  intros H Hu Hv Hs Ha Hp Hn.
  apply authQueryOneResolver_built in H as [_ ->].
  apply checkIfCanReadSelf_intersect in Hs. apply not_intersect_false in Ha.
  assert (Hn' : spy resolver rp' (w, []) = (inr result, (w', [rp']))).
  { rewrite spy_call, Hn. reflexivity. }
  rewrite (queryOne_self policy (spy resolver) rp rp' (w, []) user result (w', [rp'])
             Hu Hv Ha Hs Hp Hn').
  eexists. split; [reflexivity|].
  destruct (truthy result) eqn:Et; simpl.
  - destruct (strict_eq (prop result (ownerKey policy)) (prop user "id")) eqn:Eo.
    + apply strict_eq_true in Eo. repeat split; auto; [discriminate | congruence].
    + repeat split; auto.
  - repeat split; auto.
Qed.

Lemma query_one_never_leaks_witness :
  let rp := request (VObj {[ "_id" := VNum 2 ]}) (claim 7 ["user"]) in
  let rp' := with_projection rp (VObj {[ "ownerId" := VObj ∅ ]}) in
  exists out : value,
    queryOne self_policy (spy (answer (record 2 9))) rp (tt, []) = (inr out, (tt, [rp']))
    /\ (out = VNull
        \/ (out = record 2 9
            /\ prop (record 2 9) (ownerKey self_policy) = prop (claim 7 ["user"]) "id"))
    /\ (truthy (record 2 9) = false -> out = VNull)
    /\ (prop (record 2 9) (ownerKey self_policy) <> prop (claim 7 ["user"]) "id" ->
        out = VNull).
Proof.
  intros rp rp'.
  refine (query_one_never_leaks (answer (record 2 9)) self_policy _ rp rp' tt tt
            (claim 7 ["user"]) (record 2 9) eq_refl eq_refl eq_refl _ _ eq_refl eq_refl).
  - apply checkIfCanReadSelf_intersect. reflexivity.
  - rewrite <- checkIfCanReadAll_intersect. vm_compute. discriminate.
Defined.

(** ** Creation *)

Lemma createAuth_blind {W : Type} (policy : EntityAuthConfig) (next : Resolver W)
    (rp1 rp2 : ResolveParams) (w : W) (user : value) :
  read (context rp1) "user" = inr user -> isValidJwtPayload user = true ->
  checkIfCanWriteSelf user policy = true \/ checkIfCanWriteAll user policy = true ->
  same_but_record_owner (ownerKey policy) rp1 rp2 ->
  createAuth policy next rp2 w = createAuth policy next rp1 w.
Proof.
  intros Hu Hv Hp (Hc & Hpr & a1 & a2 & r1 & r2 & Ha1 & Ha2 & Hrs1 & Hrs2 & Hr1 & Hr2 & Ha & Hr).
  assert (Hu2 : read (context rp2) "user" = inr user) by (by rewrite <- Hc).
  rewrite (createAuth_record policy next rp1 w user a1 r1 Hu Hv Hp Ha1 Hrs1 Hr1).
  rewrite (createAuth_record policy next rp2 w user a2 r2 Hu2 Hv Hp Ha2 Hrs2 Hr2).
  unfold with_args. rewrite Hc, Hpr. do 3 f_equal.
  assert (Hrr : <[ownerKey policy := prop user "id"]> r2
                = <[ownerKey policy := prop user "id"]> r1).
  { apply map_eq. intros k. destruct (decide (ownerKey policy = k)) as [<-|Hk].
    - by rewrite !lookup_insert_eq.
    - rewrite !lookup_insert_ne by assumption. symmetry. by apply Hr. }
  rewrite Hrr. apply map_eq. intros k. destruct (decide ("record" = k)) as [<-|Hk].
  - by rewrite !lookup_insert_eq.
  - rewrite !lookup_insert_ne by assumption. symmetry. by apply Ha.
Qed.

(** X8: for a valid claim allowed to write (a role in [writeSelf] or in
    [writeAll]), the create wrapper hands the delegate a record whose owner
    field is the claim's subject id, whatever the caller put there, with
    every other field of the record, every other argument, the projection
    and the context as they came; two create requests that differ only in
    the owner value of the record give the same call, result and world. *)
Theorem create_owner_forced {W : Type} (resolver : Resolver W)
    (policy : EntityAuthConfig) (wrapped : Resolver (W * list ResolveParams))
    (rp : ResolveParams) (w : W) (user : value) :
  wrapCreateAuth (spy resolver) (Some policy) = inr wrapped ->
  read (context rp) "user" = inr user ->
  isValidJwtPayload user = true ->
  roles_intersect user (writeSelf policy) \/ roles_intersect user (writeAll policy) ->
  (forall a fields : gmap string value,
      args rp = VObj a ->
      truthy (default VUndefined (a !! "records")) = false ->
      a !! "record" = Some (VObj fields) ->
      exists (rp' : ResolveParams) (fields' : gmap string value),
        wrapped rp (w, []) = (fst (resolver rp' w), (snd (resolver rp' w), [rp']))
        /\ prop (args rp') "record" = VObj fields'
        /\ fields' !! ownerKey policy = Some (prop user "id")
        /\ (forall k, k <> ownerKey policy -> fields' !! k = fields !! k)
        /\ (forall k, k <> "record" -> prop (args rp') k = prop (args rp) k)
        /\ projection rp' = projection rp
        /\ context rp' = context rp)
  /\ (forall rp2,
      same_but_record_owner (ownerKey policy) rp rp2 ->
      wrapped rp2 (w, []) = wrapped rp (w, [])).
Proof.
  intros H Hu Hv Hp. apply wrapCreateAuth_built in H as [_ ->].
  assert (Hp' : checkIfCanWriteSelf user policy = true
                \/ checkIfCanWriteAll user policy = true).
  { destruct Hp as [Hp | Hp]; [left; by apply checkIfCanWriteSelf_intersect
                              | right; by apply checkIfCanWriteAll_intersect]. }
  split.
  - intros a fields Ha Hrs Hr.
    exists (with_args rp (VObj (<["record" :=
              VObj (<[ownerKey policy := prop user "id"]> fields)]> a))).
    exists (<[ownerKey policy := prop user "id"]> fields).
    rewrite (createAuth_record policy (spy resolver) rp (w, []) user a fields
               Hu Hv Hp' Ha Hrs Hr), spy_call.
    split; [reflexivity|]. simpl. rewrite lookup_insert_eq. split; [reflexivity|].
    rewrite lookup_insert_eq. split; [reflexivity|]. split.
    { intros k Hk. by rewrite lookup_insert_ne. }
    split; [|split; reflexivity].
    intros k Hk. rewrite Ha. simpl. by rewrite lookup_insert_ne.
  - intros rp2 Hsame. by apply (createAuth_blind policy (spy resolver) rp rp2 (w, []) user).
Qed.

Lemma create_owner_forced_witness :
  let ask := fun owner =>
    request (VObj {[ "record" := VObj (<[ "ownerId" := VNum owner ]> {[ "val" := VStr "a" ]}) ]})
            (claim 7 ["user"]) in
  createAuth self_policy (spy echo) (ask 9%Z) (tt, [])
  = createAuth self_policy (spy echo) (ask 7%Z) (tt, []).
Proof.
  intros ask.
  apply (proj2 (create_owner_forced echo self_policy (createAuth self_policy (spy echo))
                  (ask 7%Z) tt (claim 7 ["user"]) eq_refl eq_refl eq_refl
                  (or_introl (proj1 (checkIfCanWriteSelf_intersect (claim 7 ["user"])
                                       self_policy) eq_refl)))).
  split; [reflexivity|]. split; [reflexivity|].
  exists {[ "record" := VObj (<[ "ownerId" := VNum 7 ]> {[ "val" := VStr "a" ]}) ]}.
  exists {[ "record" := VObj (<[ "ownerId" := VNum 9 ]> {[ "val" := VStr "a" ]}) ]}.
  exists (<[ "ownerId" := VNum 7 ]> {[ "val" := VStr "a" ]}).
  exists (<[ "ownerId" := VNum 9 ]> {[ "val" := VStr "a" ]}).
  repeat split.
  - intros k Hk. rewrite !lookup_singleton_ne by congruence. reflexivity.
  - intros k Hk. change (ownerKey self_policy) with "ownerId" in Hk.
    by rewrite !lookup_insert_ne.
Defined.

(** X9: a create request of a valid, permitted claim that carries neither
    [records] nor [record] (both absent or falsy) fails with
    "Wrong data type." and the delegate is not called. *)
Theorem create_without_payload {W : Type} (resolver : Resolver W)
    (policy : EntityAuthConfig) (wrapped : Resolver (W * list ResolveParams))
    (rp : ResolveParams) (w : W) (user : value) (a : gmap string value) :
  wrapCreateAuth (spy resolver) (Some policy) = inr wrapped ->
  read (context rp) "user" = inr user ->
  isValidJwtPayload user = true ->
  roles_intersect user (writeSelf policy) \/ roles_intersect user (writeAll policy) ->
  args rp = VObj a ->
  truthy (default VUndefined (a !! "records")) = false ->
  truthy (default VUndefined (a !! "record")) = false ->
  wrapped rp (w, []) = (inl (Error msg_wrong_data), (w, [])).
Proof.
  intros H Hu Hv Hp Ha Hrs Hr. apply wrapCreateAuth_built in H as [_ ->].
  assert (Hg : negb (checkIfCanWriteSelf user policy)
               && negb (checkIfCanWriteAll user policy) = false).
  { destruct Hp as [Hp | Hp].
    - apply checkIfCanWriteSelf_intersect in Hp. by rewrite Hp.
    - apply checkIfCanWriteAll_intersect in Hp. rewrite Hp. apply Bool.andb_false_r. }
  unfold createAuth. run_async. rewrite Hu. simpl. rewrite Hv. simpl. rewrite Hg.
  unfold read. rewrite Ha. simpl. by rewrite Hrs, Hr.
Qed.

Lemma create_without_payload_witness :
  let rp := request (VObj {[ "filter" := VObj ∅ ]}) (claim 7 ["user"]) in
  createAuth self_policy (spy echo) rp (tt, []) = (inl (Error msg_wrong_data), (tt, [])).
Proof.
  intros rp.
  apply (create_without_payload echo self_policy _ rp tt (claim 7 ["user"])
           {[ "filter" := VObj ∅ ]}).
  - reflexivity.
  - reflexivity.
  - reflexivity.
  - left. apply checkIfCanWriteSelf_intersect. reflexivity.
  - reflexivity.
  - reflexivity.
  - reflexivity.
Defined.

(** ** Self-scoped mutations: the pre-fetch *)

Section PreFetch.

Context {W : Type}.
Implicit Types (resolver next find : Resolver W) (policy : EntityAuthConfig).
Implicit Types (rp : ResolveParams) (w : W) (user : value).

Lemma mutationAuth_fetch_rejects policy find next rp w user (e : exn) w' :
  read (context rp) "user" = inr user -> isValidJwtPayload user = true ->
  checkIfCanWriteAll user policy = false ->
  checkIfCanWriteSelf user policy = true ->
  find (prefetch_params policy (args rp)) w = (inl e, w') ->
  mutationAuth policy find next rp w = (inl e, w').
Proof.
  intros Hu Hv Ha Hs Hf. unfold mutationAuth. run_async.
  rewrite Hu. simpl. rewrite Hv, Ha, Hs. simpl. by rewrite Hf.
Qed.

Lemma mutationAuth_fetch_nullish policy find next rp w user (found : value) w' :
  read (context rp) "user" = inr user -> isValidJwtPayload user = true ->
  checkIfCanWriteAll user policy = false ->
  checkIfCanWriteSelf user policy = true ->
  find (prefetch_params policy (args rp)) w = (inr found, w') ->
  nullish found = true ->
  mutationAuth policy find next rp w = (inl TypeError, w').
Proof.
  intros Hu Hv Ha Hs Hf Hn. unfold mutationAuth. run_async.
  rewrite Hu. simpl. rewrite Hv, Ha, Hs. simpl. rewrite Hf. unfold read. by rewrite Hn.
Qed.

Lemma mutationByIdsEach_fetch policy find next rp w user
    (a : gmap string value) (records ids : list value) :
  read (context rp) "user" = inr user -> isValidJwtPayload user = true ->
  checkIfCanWriteAll user policy = false ->
  checkIfCanWriteSelf user policy = true ->
  args rp = VObj a -> a !! "records" = Some (VArr records) ->
  traverse (fun record => read record "_id") records = inr ids ->
  mutationByIdsEach policy find next rp w
  = match find (prefetch_params policy (VObj {[ "_ids" := VArr ids ]})) w with
    | (inl e, w') => (inl e, w')
    | (inr foundRecords, w') =>
        match ebind (array_items foundRecords)
                (fun found => ebind (filter_owned (ownerKey policy) (prop user "id") found)
                   (fun owned => inr (length owned =? length found)%nat)) with
        | inl e => (inl e, w')
        | inr true => next rp w'
        | inr false => (inl (Error msg_denied), w')
        end
    end.
Proof.
  intros Hu Hv Ha Hs Hargs Hrs Hids. unfold mutationByIdsEach. run_async.
  rewrite Hu. simpl. rewrite Hv, Ha, Hs. simpl.
  unfold read at 1. rewrite Hargs. simpl. rewrite Hrs. simpl. rewrite Hids. simpl.
  destruct (find _ w) as [[e|foundRecords] w']; [reflexivity|].
  destruct (array_items foundRecords) as [e|found]; simpl; [reflexivity|].
  destruct (filter_owned (ownerKey policy) (prop user "id") found) as [e|owned]; simpl;
    [reflexivity|].
  destruct (length owned =? length found)%nat; reflexivity.
Qed.

End PreFetch.

(** X10: under a valid claim with a write-self role and no write-all role,
    when the pre-fetch of [wrapMutationAuth] answers with a record owned by
    the claim's subject (one without a [length] property), or with a batch
    all of whose records are (the empty batch included), exactly two calls
    are made, in this order: the pre-fetch, with the caller's arguments, a
    projection of the owner field alone and no context, then the delegate,
    with the request as it came; the delegate's outcome is the answer. *)
Theorem owned_record_mutation {W : Type} (resolver find : Resolver W)
    (policy : EntityAuthConfig) (wrapped : Resolver (W * list ResolveParams))
    (rp : ResolveParams) (w w' : W) (user found : value) :
  wrapMutationAuth (spy resolver) (Some policy) (spy find) = inr wrapped ->
  read (context rp) "user" = inr user ->
  isValidJwtPayload user = true ->
  roles_intersect user (writeSelf policy) ->
  ~ roles_intersect user (writeAll policy) ->
  find (prefetch_params policy (args rp)) w = (inr found, w') ->
  (exists fields : gmap string value,
      found = VObj fields /\ prop found "length" = VUndefined
      /\ owned_by (ownerKey policy) (prop user "id") fields = true)
  \/ (exists records : list (gmap string value),
      found = VArr (VObj <$> records)
      /\ Forall (fun fields =>
                   owned_by (ownerKey policy) (prop user "id") fields = true) records) ->
  wrapped rp (w, [])
  = (fst (resolver rp w'),
     (snd (resolver rp w'), [prefetch_params policy (args rp); rp])).
Proof.
  intros H Hu Hv Hs Ha Hf Hown.
  apply wrapMutationAuth_built in H as [_ ->].
  apply checkIfCanWriteSelf_intersect in Hs.
  apply not_intersect_false in Ha.
  assert (Hf' : spy find (prefetch_params policy (args rp)) (w, [])
                = (inr found, (w', [prefetch_params policy (args rp)]))).
  { rewrite spy_call, Hf. reflexivity. }
  destruct (mutationAuth_self_fetch policy (spy find) (spy resolver) rp (w, [])
              user found (w', [prefetch_params policy (args rp)]) Hu Hv Ha Hs Hf')
    as [Hone Hmany].
  destruct Hown as [(fields & -> & Hlen & Hown) | (records & -> & Hown)].
  - rewrite (Hone fields eq_refl), Hlen, Hown. simpl. apply spy_call.
  - rewrite (Hmany records eq_refl), bool_decide_eq_true_2 by assumption. apply spy_call.
Qed.

Lemma owned_record_mutation_witness :
  let rp := request (VObj {[ "_id" := VNum 2 ]}) (claim 7 ["user"]) in
  mutationAuth self_policy (spy (answer (record 2 7))) (spy echo) rp (tt, [])
  = (inr (args rp), (tt, [prefetch_params self_policy (args rp); rp])).
Proof.
  intros rp.
  refine (owned_record_mutation echo (answer (record 2 7)) self_policy _ rp tt tt
            (claim 7 ["user"]) (record 2 7) eq_refl eq_refl eq_refl _ _ eq_refl _).
  - apply checkIfCanWriteSelf_intersect. reflexivity.
  - rewrite <- checkIfCanWriteAll_intersect. vm_compute. discriminate.
  - left. eexists. split; [reflexivity|]. split; reflexivity.
Defined.

(** X11: a rejection of the pre-fetch is the rejection of the call: under
    a valid claim with a write-self role and no write-all role, when the
    fetch resolver of [wrapMutationAuth] or of [authMutationByIdsEach]
    rejects, the wrapper rejects with the same error in the world the fetch
    left, and the delegate has not been called. *)
Theorem prefetch_rejection_propagates {W : Type} (resolver find : Resolver W)
    (policy : EntityAuthConfig) (rp : ResolveParams) (w w' : W) (user : value) (e : exn) :
  read (context rp) "user" = inr user ->
  isValidJwtPayload user = true ->
  roles_intersect user (writeSelf policy) ->
  ~ roles_intersect user (writeAll policy) ->
  (forall wrapped,
      wrapMutationAuth (spy resolver) (Some policy) (spy find) = inr wrapped ->
      find (prefetch_params policy (args rp)) w = (inl e, w') ->
      wrapped rp (w, []) = (inl e, (w', [prefetch_params policy (args rp)])))
  /\ (forall wrapped (a : gmap string value) (records ids : list value),
      authMutationByIdsEach (spy resolver) (Some policy) (spy find) = inr wrapped ->
      args rp = VObj a -> a !! "records" = Some (VArr records) ->
      traverse (fun record => read record "_id") records = inr ids ->
      find (prefetch_params policy (VObj {[ "_ids" := VArr ids ]})) w = (inl e, w') ->
      wrapped rp (w, [])
      = (inl e, (w', [prefetch_params policy (VObj {[ "_ids" := VArr ids ]})]))).
Proof.
  intros Hu Hv Hs Ha.
  apply checkIfCanWriteSelf_intersect in Hs. apply not_intersect_false in Ha. split.
  - intros wrapped H Hf. apply wrapMutationAuth_built in H as [_ ->].
    apply (mutationAuth_fetch_rejects policy (spy find) (spy resolver) rp (w, []) user);
      try assumption.
    rewrite spy_call, Hf. reflexivity.
  - intros wrapped a records ids H Hargs Hrs Hids Hf.
    apply authMutationByIdsEach_built in H as [_ ->].
    rewrite (mutationByIdsEach_fetch policy (spy find) (spy resolver) rp (w, []) user
               a records ids Hu Hv Ha Hs Hargs Hrs Hids).
    rewrite spy_call, Hf. reflexivity.
Qed.

Lemma prefetch_rejection_propagates_witness :
  let rp := request (VObj {[ "_id" := VNum 2 ]}) (claim 7 ["user"]) in
  let failing : Resolver unit := fun _ w => (inl (Error "connection lost"), w) in
  mutationAuth self_policy (spy failing) (spy echo) rp (tt, [])
  = (inl (Error "connection lost"), (tt, [prefetch_params self_policy (args rp)])).
Proof.
  intros rp failing.
  refine (proj1 (prefetch_rejection_propagates echo failing self_policy rp tt tt
                   (claim 7 ["user"]) (Error "connection lost") eq_refl eq_refl _ _)
            _ eq_refl eq_refl).
  - apply checkIfCanWriteSelf_intersect. reflexivity.
  - rewrite <- checkIfCanWriteAll_intersect. vm_compute. discriminate.
Defined.

(** X12: under a valid claim with a write-self role and no write-all role,
    a pre-fetch that finds nothing makes [wrapMutationAuth] fail with a
    [TypeError] (it reads [length] of [null]), not with an access-denied or
    a not-found error, and a batch fetch that answers with something that is
    not an array makes [authMutationByIdsEach] fail with a [TypeError]; in
    both cases the delegate has not been called. *)
Theorem unusable_prefetch_answer {W : Type} (resolver find : Resolver W)
    (policy : EntityAuthConfig) (rp : ResolveParams) (w w' : W) (user found : value) :
  read (context rp) "user" = inr user ->
  isValidJwtPayload user = true ->
  roles_intersect user (writeSelf policy) ->
  ~ roles_intersect user (writeAll policy) ->
  (forall wrapped,
      wrapMutationAuth (spy resolver) (Some policy) (spy find) = inr wrapped ->
      find (prefetch_params policy (args rp)) w = (inr found, w') ->
      nullish found = true ->
      wrapped rp (w, []) = (inl TypeError, (w', [prefetch_params policy (args rp)])))
  /\ (forall wrapped (a : gmap string value) (records ids : list value),
      authMutationByIdsEach (spy resolver) (Some policy) (spy find) = inr wrapped ->
      args rp = VObj a -> a !! "records" = Some (VArr records) ->
      traverse (fun record => read record "_id") records = inr ids ->
      find (prefetch_params policy (VObj {[ "_ids" := VArr ids ]})) w = (inr found, w') ->
      isArray found = false ->
      wrapped rp (w, [])
      = (inl TypeError, (w', [prefetch_params policy (VObj {[ "_ids" := VArr ids ]})]))).
Proof.
  intros Hu Hv Hs Ha.
  apply checkIfCanWriteSelf_intersect in Hs. apply not_intersect_false in Ha. split.
  - intros wrapped H Hf Hn. apply wrapMutationAuth_built in H as [_ ->].
    apply (mutationAuth_fetch_nullish policy (spy find) (spy resolver) rp (w, []) user found);
      try assumption.
    rewrite spy_call, Hf. reflexivity.
  - intros wrapped a records ids H Hargs Hrs Hids Hf Harr.
    apply authMutationByIdsEach_built in H as [_ ->].
    rewrite (mutationByIdsEach_fetch policy (spy find) (spy resolver) rp (w, []) user
               a records ids Hu Hv Ha Hs Hargs Hrs Hids).
    rewrite spy_call, Hf. simpl. destruct found; try discriminate; reflexivity.
Qed.

Lemma unusable_prefetch_answer_witness :
  let rp := request (VObj {[ "_id" := VNum 404 ]}) (claim 7 ["user"]) in
  mutationAuth self_policy (spy (answer VNull)) (spy echo) rp (tt, [])
  = (inl TypeError, (tt, [prefetch_params self_policy (args rp)])).
Proof.
  intros rp.
  refine (proj1 (unusable_prefetch_answer echo (answer VNull) self_policy rp tt tt
                   (claim 7 ["user"]) VNull eq_refl eq_refl _ _)
            _ eq_refl eq_refl eq_refl).
  - apply checkIfCanWriteSelf_intersect. reflexivity.
  - rewrite <- checkIfCanWriteAll_intersect. vm_compute. discriminate.
Defined.

(** ** More on the "update each" resolver *)

Lemma check_records_null (typeName : string) (before after : list value) :
  Forall record_with_field before ->
  check_records typeName (before ++ VNull :: after) = inl TypeError.
Proof.
  induction 1 as [|r before (fields & -> & Hne) _ IH]; [reflexivity|].
  simpl. apply map_size_non_empty_iff in Hne.
  destruct (Nat.eqb_spec (size fields) 0); [contradiction | exact IH].
Qed.

(** X13: a [null] entry in [args.records], after entries that pass the
    checks, is not rejected by the resolver's own error: [typeof null] is
    ['object'], and [Object.keys(null)] raises a [TypeError]; no call to the
    model has been made. *)
Theorem null_entry_type_error {W : Type} (typeName : string) (model : Model W)
    (sched : list nat) (beforeRecordMutate : option (Hook W))
    (rp : ResolveParams) (w : W) (before after : list value) :
  read_opt (args rp) "records" = VArr (before ++ VNull :: after) ->
  Forall record_with_field before ->
  updateByIdEach typeName model sched beforeRecordMutate rp w = (inl TypeError, w).
Proof.
  intros Hdata Hvalid. unfold updateByIdEach. rewrite Hdata. simpl.
  rewrite length_app. simpl. rewrite Nat.add_succ_r. simpl.
  unfold bind at 1. by rewrite (check_records_null typeName before after Hvalid).
Qed.

Lemma null_entry_type_error_witness :
  updateByIdEach "Item" collection [] None (batch [doc 1 "a"; VNull; doc 2 "b"]) two_docs
  = (inl TypeError, two_docs).
Proof.
  apply (null_entry_type_error "Item" collection [] None
           (batch [doc 1 "a"; VNull; doc 2 "b"]) two_docs [doc 1 "a"] [doc 2 "b"] eq_refl).
  repeat constructor. eexists. split; [reflexivity|].
  intros H. apply (f_equal (fun m => m !! "_id")) in H. vm_compute in H. discriminate.
Defined.

Section TracedModel.

Context {W : Type}.
Implicit Types (model : Model W) (rp : ResolveParams) (w : W).
Implicit Types (ts : list task) (calls : list model_call).

Lemma omap_replace {A B : Type} (f : A -> option B) (l : list A) (i : nat) (x y : A) :
  l !! i = Some x ->
  omap f (<[i := y]> l) ++ omap f [x] ≡ₚ omap f l ++ omap f [y].
Proof.
  revert i. induction l as [|a l IH]; intros [|i] Hi; simpl in *; try discriminate.
  - injection Hi as ->. destruct (f x), (f y); simpl; rewrite ?app_nil_r; solve_Permutation.
  - specialize (IH i Hi). simpl in IH. destruct (f a); simpl; [|exact IH].
    by apply Permutation_skip.
Qed.

Lemma build_docs_calls model rp (records : list value) w calls docs w' calls' :
  build_docs (traced model) None rp records (w, calls) = (inr docs, (w', calls')) ->
  news_of calls' = news_of calls ++ records
  /\ updates_of calls' = updates_of calls
  /\ finds_of calls' = finds_of calls.
Proof.
  revert w calls docs. induction records as [|r records IH]; intros w calls docs; simpl.
  - unfold ret. intros [= <- <- <-]. by rewrite app_nil_r.
  - unfold bind at 1. simpl.
    destruct (model_new model r w) as [[e|fresh] w1]; [discriminate|].
    unfold bind at 1, ret at 1. unfold bind at 1.
    destruct (build_docs (traced model) None rp records (w1, calls ++ [CallNew r]))
      as [[e|rest] [w2 calls2]] eqn:Erest; [discriminate|].
    unfold ret. intros [= <- <- <-].
    destruct (IH _ _ _ Erest) as (Hn & Hu & Hf).
    unfold news_of, updates_of, finds_of in *.
    rewrite Hn, Hu, Hf, !omap_app. simpl. rewrite ?app_nil_r, <- ?app_assoc. auto.
Qed.

Lemma step_calls model (t t' : task) w calls w' calls' :
  step (traced model) t (w, calls) = (inr t', (w', calls')) ->
  updates_of calls' ++ updates_due [t'] = updates_of calls ++ updates_due [t]
  /\ finds_of calls' ++ finds_due [t'] = finds_of calls ++ finds_due [t]
  /\ news_of calls' = news_of calls.
Proof.
  destruct t as [id doc | id | r]; simpl; unfold bind, ret; simpl.
  - destruct (findByIdAndUpdate model id doc w) as [[e|r] w1]; [discriminate|].
    intros [= <- <- <-]. unfold updates_of, finds_of, news_of, updates_due, finds_due.
    rewrite !omap_app. simpl. by rewrite ?app_nil_r.
  - destruct (findById model id w) as [[e|r] w1]; [discriminate|].
    intros [= <- <- <-]. unfold updates_of, finds_of, news_of, updates_due, finds_due.
    rewrite !omap_app. simpl. by rewrite ?app_nil_r.
  - intros [= <- <- <-]. auto.
Qed.

Lemma due_cons (t : task) ts :
  updates_due (t :: ts) = updates_due [t] ++ updates_due ts
  /\ finds_due (t :: ts) = finds_due [t] ++ finds_due ts.
Proof. unfold updates_due, finds_due. by destruct t. Qed.

Lemma drain_calls model ts w calls ts' w' calls' :
  drain (traced model) ts (w, calls) = (inr ts', (w', calls')) ->
  updates_of calls' ≡ₚ updates_of calls ++ updates_due ts
  /\ finds_of calls' ≡ₚ finds_of calls ++ finds_due ts
  /\ news_of calls' = news_of calls.
Proof.
  revert w calls ts'. induction ts as [|t ts IH]; intros w calls ts'.
  - simpl. unfold ret. intros [= <- <- <-]. unfold updates_due, finds_due. simpl.
    by rewrite !app_nil_r.
  - cbn [drain]. unfold bind at 1.
    destruct (step (traced model) t (w, calls)) as [[e|t1] [w1 c1]] eqn:E1; [discriminate|].
    unfold bind at 1.
    destruct (step (traced model) t1 (w1, c1)) as [[e|t2] [w2 c2]] eqn:E2; [discriminate|].
    unfold bind at 1.
    destruct (drain (traced model) ts (w2, c2)) as [[e|rest] [w3 c3]] eqn:E3; [discriminate|].
    unfold ret. intros [= <- <- <-].
    destruct (step_twice_fulfilled _ _ _ _ _ _ _ E1 E2) as (r & ->).
    destruct (step_calls _ _ _ _ _ _ _ E1) as (Hu1 & Hf1 & Hn1).
    destruct (step_calls _ _ _ _ _ _ _ E2) as (Hu2 & Hf2 & Hn2).
    destruct (IH _ _ _ E3) as (Hu3 & Hf3 & Hn3).
    destruct (due_cons t ts) as [-> ->].
    change (updates_due [Fulfilled r]) with (@nil (value * value)) in Hu2.
    change (finds_due [Fulfilled r]) with (@nil value) in Hf2.
    rewrite app_nil_r in Hu2, Hf2.
    rewrite Hu3, Hf3, Hn3, Hn2, Hn1, Hu2, Hf2, !app_assoc, Hu1, Hf1. auto.
Qed.

Lemma run_tasks_calls model (sched : list nat) ts w calls ts' w' calls' :
  run_tasks (traced model) sched ts (w, calls) = (inr ts', (w', calls')) ->
  updates_of calls' ≡ₚ updates_of calls ++ updates_due ts
  /\ finds_of calls' ≡ₚ finds_of calls ++ finds_due ts
  /\ news_of calls' = news_of calls.
Proof.
  revert ts w calls. induction sched as [|i sched IH]; intros ts w calls; simpl.
  - apply drain_calls.
  - destruct (ts !! i) as [t|] eqn:Et; [|apply IH].
    unfold bind.
    destruct (step (traced model) t (w, calls)) as [[e|t1] [w1 c1]] eqn:E1; [discriminate|].
    intros Hrun. destruct (IH _ _ _ Hrun) as (Hu & Hf & Hn).
    destruct (step_calls _ _ _ _ _ _ _ E1) as (Hu1 & Hf1 & Hn1).
    rewrite Hu, Hf, Hn, Hn1. split; [|split; [|reflexivity]].
    + apply (Permutation_app_inv_r (updates_due [t])).
      rewrite <- !app_assoc. unfold updates_due at 1 2.
      rewrite (omap_replace _ ts i t t1 Et). fold (updates_due ts) (updates_due [t1]).
      rewrite (Permutation_app_comm (updates_due ts)), !app_assoc, Hu1.
      rewrite <- !app_assoc. apply Permutation_app_head, Permutation_app_comm.
    + apply (Permutation_app_inv_r (finds_due [t])).
      rewrite <- !app_assoc. unfold finds_due at 1 2.
      rewrite (omap_replace _ ts i t t1 Et). fold (finds_due ts) (finds_due [t1]).
      rewrite (Permutation_app_comm (finds_due ts)), !app_assoc, Hf1.
      rewrite <- !app_assoc. apply Permutation_app_head, Permutation_app_comm.
Qed.

Lemma tasks_due (ids docs : list value) :
  length ids = length docs ->
  updates_due (zip_with Updating ids docs) = zip ids docs
  /\ finds_due (zip_with Updating ids docs) = ids.
Proof.
  revert docs. induction ids as [|id ids IH]; intros [|doc docs]; simpl;
    try discriminate; intros Hlen; [by split|].
  destruct (IH docs ltac:(congruence)) as [Hu Hf].
  unfold updates_due, finds_due in *. simpl. by rewrite Hu, Hf.
Qed.

End TracedModel.

Lemma calls_partition (calls : list model_call) :
  length calls
  = (length (news_of calls) + length (updates_of calls) + length (finds_of calls))%nat.
Proof.
  unfold news_of, updates_of, finds_of.
  induction calls as [|c calls IH]; [reflexivity|].
  assert (Hc : forall (B : Type) (f : model_call -> option B),
             length (omap f (c :: calls))
             = ((match f c with Some _ => 1 | None => 0 end)
                + length (omap f calls))%nat).
  { intros B f. simpl. by destruct (f c). }
  rewrite !Hc. cbn [length]. destruct c; cbv beta iota; lia.
Qed.

(** X14: whatever the order in which the store completes the pending
    calls, a successful "update each" over [n] records, called without a
    pre-mutation hook, has made exactly
    [3 n] calls to the model: one [new model(record)] per input record, in
    input order, then one [findByIdAndUpdate] per document, with the
    document's own id and the document, and one [findById] per document id;
    no document is updated or re-fetched twice, and none is skipped. *)
Theorem model_called_once_per_record {W : Type} (typeName : string) (model : Model W)
    (sched : list nat) (rp : ResolveParams) (w w' : W)
    (records : list value) (result : value) (calls : list model_call) :
  read_opt (args rp) "records" = VArr records ->
  records <> [] ->
  Forall record_with_field records ->
  updateByIdEach typeName (traced model) sched None rp (w, []) = (inr result, (w', calls)) ->
  exists docs ids : list value,
    Forall2 (fun doc id => read doc "_id" = inr id) docs ids
    /\ length docs = length records
    /\ news_of calls = records
    /\ updates_of calls ≡ₚ zip ids docs
    /\ finds_of calls ≡ₚ ids
    /\ length calls = (3 * length records)%nat.
Proof.
  intros Hdata Hne Hvalid.
  unfold updateByIdEach. rewrite Hdata. simpl.
  destruct records as [|r0 records0] eqn:Erecords; [contradiction|]. cbn [length Nat.eqb].
  rewrite <- Erecords in *. clear Hne.
  unfold bind at 1. rewrite (check_records_accepts typeName _ Hvalid). simpl.
  unfold bind at 1.
  destruct (build_docs (traced model) None rp records (w, [])) as [[e|docs] [w1 c1]] eqn:Edocs;
    [discriminate|].
  unfold bind at 1, lift.
  destruct (traverse (fun doc => read doc "_id") docs) as [e|ids] eqn:Eids; [discriminate|].
  unfold ret at 1. unfold bind.
  destruct (run_tasks (traced model) sched (zip_with Updating ids docs) (w1, c1))
    as [[e|ts'] [w2 c2]] eqn:Erun; [discriminate|].
  unfold ret. intros [= _ _ <-].
  destruct (build_docs_calls _ _ _ _ _ _ _ _ Edocs) as (Hn1 & Hu1 & Hf1).
  destruct (run_tasks_calls _ _ _ _ _ _ _ _ Erun) as (Hu2 & Hf2 & Hn2).
  apply build_docs_built in Edocs. apply traverse_each in Eids.
  assert (Hlen1 := Forall2_length _ _ _ Edocs).
  assert (Hlen2 := Forall2_length _ _ _ Eids).
  destruct (tasks_due ids docs ltac:(congruence)) as [Hdu Hdf].
  rewrite Hu1, Hdu in Hu2. rewrite Hf1, Hdf in Hf2. rewrite Hn1 in Hn2.
  change (updates_of []) with (@nil (value * value)) in Hu2.
  change (finds_of []) with (@nil value) in Hf2.
  change (news_of []) with (@nil value) in Hn2.
  rewrite app_nil_l in Hu2, Hf2, Hn2.
  assert (Hlen0 : length records = S (length records0)) by (by rewrite Erecords).
  exists docs, ids. split; [assumption|]. split; [lia|]. split; [assumption|].
  split; [assumption|]. split; [assumption|].
  rewrite calls_partition, Hn2, (Permutation_length Hu2), (Permutation_length Hf2).
  rewrite length_zip. lia.
Qed.

Lemma model_called_once_per_record_witness :
  exists docs ids : list value,
    Forall2 (fun doc id => read doc "_id" = inr id) docs ids
    /\ length docs = 2%nat
    /\ news_of [CallNew (doc 1 "a"); CallNew (doc 2 "b");
                CallUpdate (VNum 2) (doc 2 "b"); CallUpdate (VNum 1) (doc 1 "a");
                CallFind (VNum 2); CallFind (VNum 1)] = [doc 1 "a"; doc 2 "b"]
    /\ updates_of [CallNew (doc 1 "a"); CallNew (doc 2 "b");
                   CallUpdate (VNum 2) (doc 2 "b"); CallUpdate (VNum 1) (doc 1 "a");
                   CallFind (VNum 2); CallFind (VNum 1)] ≡ₚ zip ids docs
    /\ finds_of [CallNew (doc 1 "a"); CallNew (doc 2 "b");
                 CallUpdate (VNum 2) (doc 2 "b"); CallUpdate (VNum 1) (doc 1 "a");
                 CallFind (VNum 2); CallFind (VNum 1)] ≡ₚ ids
    /\ 6%nat = (3 * 2)%nat.
Proof.
  refine (model_called_once_per_record "Item" collection [1; 0; 1]%nat
            (batch [doc 1 "a"; doc 2 "b"]) two_docs
            (<[ 1%Z := doc 1 "a" ]> {[ 2%Z := doc 2 "b" ]})
            [doc 1 "a"; doc 2 "b"]
            (VObj (<[ "records" := VArr [doc 1 "a"; doc 2 "b"] ]>
                     {[ "updatedCount" := VNum 2 ]}))
            [CallNew (doc 1 "a"); CallNew (doc 2 "b");
             CallUpdate (VNum 2) (doc 2 "b"); CallUpdate (VNum 1) (doc 1 "a");
             CallFind (VNum 2); CallFind (VNum 1)]
            eq_refl _ _ _).
  - discriminate.
  - repeat constructor; eexists; (split; [reflexivity|]);
      intros H; apply (f_equal (fun m => m !! "_id")) in H; vm_compute in H; discriminate.
  - vm_compute. reflexivity.
Defined.

(** ** Subscriptions *)

Lemma wrapResolverWithSubscription_run {W : Type} (publish : string -> value -> W -> W)
    (resolver : Resolver W) (subscriptionType : SubscriptionType) (name : string)
    (rp : ResolveParams) (w w' : W) :
  let wrapped := wrapResolverWithSubscription publish resolver subscriptionType name in
  let trigger := name +:+ SubscriptionType_value subscriptionType in
  (forall e, resolver rp w = (inl e, w') -> wrapped rp w = (inl e, w'))
  /\ (forall res records,
        resolver rp w = (inr res, w') -> read_opt res "records" = VArr records ->
        wrapped rp w
        = (inr res, foldl (fun world record => publish trigger record world) w' records))
  /\ (forall res,
        resolver rp w = (inr res, w') ->
        truthy (read_opt res "records") = false ->
        truthy (read_opt res "record") = true ->
        wrapped rp w = (inr res, publish trigger (read_opt res "record") w'))
  /\ (forall res,
        resolver rp w = (inr res, w') ->
        truthy (read_opt res "records") = false ->
        truthy (read_opt res "record") = false ->
        wrapped rp w = (inr res, w')).
Proof.
  intros wrapped trigger. unfold wrapped, wrapResolverWithSubscription, wrapResolve.
  repeat split.
  - intros e H. unfold bind. by rewrite H.
  - intros res records H Hrs. unfold bind at 1. rewrite H, Hrs. reflexivity.
  - intros res H Hrs Hr. unfold bind at 1. rewrite H, Hrs, Hr. reflexivity.
  - intros res H Hrs Hr. unfold bind at 1. rewrite H, Hrs, Hr. reflexivity.
Qed.


(** X15: [wrapResolverWithSubscription] returns the delegate's answer as
    it is.  When the answer has a [records] array it publishes one event
    per record, in order, on the trigger [name] followed by the
    subscription type, and then [record] is not looked at (an empty
    [records] array publishes nothing); otherwise, when the answer has a
    truthy [record], it publishes that one; otherwise nothing.  A rejection
    of the delegate is passed on and nothing is published. *)
Theorem subscription_events {W : Type} (publish : string -> value -> W -> W)
    (resolver : Resolver W) (subscriptionType : SubscriptionType) (name : string)
    (rp : ResolveParams) (w w' : W) :
  let wrapped := wrapResolverWithSubscription publish resolver subscriptionType name in
  let trigger := name +:+ SubscriptionType_value subscriptionType in
  (forall e, resolver rp w = (inl e, w') -> wrapped rp w = (inl e, w'))
  /\ (forall res records,
        resolver rp w = (inr res, w') -> read_opt res "records" = VArr records ->
        wrapped rp w
        = (inr res, foldl (fun world record => publish trigger record world) w' records))
  /\ (forall res,
        resolver rp w = (inr res, w') ->
        truthy (read_opt res "records") = false ->
        truthy (read_opt res "record") = true ->
        wrapped rp w = (inr res, publish trigger (read_opt res "record") w'))
  /\ (forall res,
        resolver rp w = (inr res, w') ->
        truthy (read_opt res "records") = false ->
        truthy (read_opt res "record") = false ->
        wrapped rp w = (inr res, w')).
Proof. apply wrapResolverWithSubscription_run. Qed.

Lemma subscription_events_witness :
  let publish := fun (trigger : string) (record : value) (events : list (string * value)) =>
                   events ++ [(trigger, record)] in
  let createMany : Resolver (list (string * value)) :=
    fun rp events => (inr (VObj {[ "records" := VArr [doc 1 "a"; doc 2 "b"] ]}), events) in
  wrapResolverWithSubscription publish createMany Create "Item"
    (batch [doc 1 "a"; doc 2 "b"]) []
  = (inr (VObj {[ "records" := VArr [doc 1 "a"; doc 2 "b"] ]}),
     [("ItemCreate", doc 1 "a"); ("ItemCreate", doc 2 "b")]).
Proof.
  intros publish createMany.
  apply (proj1 (proj2 (subscription_events publish createMany Create "Item"
                         (batch [doc 1 "a"; doc 2 "b"]) [] []))
           (VObj {[ "records" := VArr [doc 1 "a"; doc 2 "b"] ]}) [doc 1 "a"; doc 2 "b"]).
  - reflexivity.
  - reflexivity.
Defined.

(** X16: the update-by-id and remove-by-id fields publish an event only for
    an authorized mutation.  Under a valid claim with a write-self role and
    no write-all role: when the pre-fetched record has another owner the
    call fails and the world is the one the pre-fetch left, so the base
    resolver has not run and no event has been published; when the record is
    the subject's own and the base resolver answers with a [record], that
    record is published once, on the trigger of the field, after the
    mutation. *)
Theorem event_only_when_authorized {W : Type} (publish : string -> value -> W -> W)
    (base findById : Resolver W) (name : string) (policy : EntityAuthConfig)
    (subscriptionType : SubscriptionType) (wrapped : Resolver W)
    (rp : ResolveParams) (w w' : W) (user : value) (fields : gmap string value) :
  (subscriptionType = Update
   /\ field_UpdateById publish base findById name (Some policy) = inr wrapped)
  \/ (subscriptionType = Remove
      /\ field_RemoveById publish base findById name (Some policy) = inr wrapped) ->
  read (context rp) "user" = inr user ->
  isValidJwtPayload user = true ->
  roles_intersect user (writeSelf policy) ->
  ~ roles_intersect user (writeAll policy) ->
  findById (prefetch_params policy (args rp)) w = (inr (VObj fields), w') ->
  (prop (VObj fields) (ownerKey policy) <> prop user "id" ->
     exists e, wrapped rp w = (inl e, w'))
  /\ (forall res w'',
        prop (VObj fields) "length" = VUndefined ->
        owned_by (ownerKey policy) (prop user "id") fields = true ->
        base rp w' = (inr res, w'') ->
        truthy (read_opt res "records") = false ->
        truthy (read_opt res "record") = true ->
        wrapped rp w
        = (inr res,
           publish (name +:+ SubscriptionType_value subscriptionType)
                   (read_opt res "record") w'')).
Proof.
  intros H Hu Hv Hs Ha Hf.
  assert (Hw : wrapped = mutationAuth policy findById
                 (wrapResolverWithSubscription publish base subscriptionType name)).
  { destruct H as [[-> H] | [-> H]];
      by apply wrapMutationAuth_built in H as [_ ->]. }
  subst wrapped. clear H.
  apply checkIfCanWriteSelf_intersect in Hs. apply not_intersect_false in Ha.
  destruct (mutationAuth_self_fetch policy findById
              (wrapResolverWithSubscription publish base subscriptionType name)
              rp w user (VObj fields) w' Hu Hv Ha Hs Hf) as [Hone _].
  rewrite (Hone fields eq_refl). split.
  - intros Hne. unfold owned_by. rewrite (strict_eq_neq _ _ Hne).
    destruct (strict_eq (prop (VObj fields) "length") VUndefined); eauto.
  - intros res w'' Hlen Hown Hbase Hrs Hr. rewrite Hlen, Hown. simpl.
    by apply (wrapResolverWithSubscription_run publish base subscriptionType name rp w' w'').
Qed.

Lemma event_only_when_authorized_witness :
  let publish := fun (trigger : string) (record : value) (events : list (string * value)) =>
                   events ++ [(trigger, record)] in
  let removeById : Resolver (list (string * value)) :=
    fun rp events => (inr (VObj {[ "record" := record 1 9 ]}), events) in
  let findById : Resolver (list (string * value)) :=
    fun rp events => (inr (record 1 9), events) in
  let rp := request (VObj {[ "_id" := VNum 1 ]}) (claim 7 ["user"]) in
  exists e,
    mutationAuth self_policy findById
      (wrapResolverWithSubscription publish removeById Remove "Item") rp []
    = (inl e, []).
Proof.
  intros publish removeById findById rp.
  refine (proj1 (event_only_when_authorized publish removeById findById "Item" self_policy
                   Remove _ rp [] [] (claim 7 ["user"])
                   (<[ "id" := VNum 1 ]> {[ "ownerId" := VNum 9 ]})
                   (or_intror (conj eq_refl eq_refl)) eq_refl eq_refl _ _ eq_refl) _).
  - apply checkIfCanWriteSelf_intersect. reflexivity.
  - rewrite <- checkIfCanWriteAll_intersect. vm_compute. discriminate.
  - vm_compute. discriminate.
Defined.

(** X17: the update-each field on an empty [records] list.  For a valid
    claim with a write-all role the call fails with the resolver's
    "must contain at least one record" error in an untouched world.  For a
    valid claim with a write-self role only, the authorization wrapper
    first runs its batch fetch (for no id at all); when that answers with
    no record the call then fails with the same error, in the world the
    fetch left, and no event is published. *)
Theorem update_each_field_empty_batch {W : Type} (publish : string -> value -> W -> W)
    (typeName : string) (model : Model W) (sched : list nat)
    (beforeRecordMutate : option (Hook W)) (findByIds : Resolver W) (name : string)
    (policy : EntityAuthConfig) (wrapped : Resolver W)
    (rp : ResolveParams) (w : W) (user : value) (a : gmap string value) :
  field_UpdateByIdEach publish typeName model sched beforeRecordMutate findByIds name
    (Some policy) = inr wrapped ->
  read (context rp) "user" = inr user ->
  isValidJwtPayload user = true ->
  args rp = VObj a ->
  a !! "records" = Some (VArr []) ->
  (roles_intersect user (writeAll policy) ->
     wrapped rp w = (inl (Error (msg_records_required typeName)), w))
  /\ (forall w',
        roles_intersect user (writeSelf policy) ->
        ~ roles_intersect user (writeAll policy) ->
        findByIds (prefetch_params policy (VObj {[ "_ids" := VArr [] ]})) w
          = (inr (VArr []), w') ->
        wrapped rp w = (inl (Error (msg_records_required typeName)), w')).
Proof.
  intros H Hu Hv Hargs Hrs. unfold field_UpdateByIdEach in H.
  apply authMutationByIdsEach_built in H as [_ ->].
  assert (Hbase : forall w0,
             wrapResolverWithSubscription publish
               (updateByIdEach typeName model sched beforeRecordMutate) Update name rp w0
             = (inl (Error (msg_records_required typeName)), w0)).
  { intros w0.
    apply (wrapResolverWithSubscription_run publish _ Update name rp w0 w0).
    unfold updateByIdEach, read_opt. rewrite Hargs. simpl. rewrite Hrs. reflexivity. }
  split.
  - intros Ha. apply checkIfCanWriteAll_intersect in Ha.
    rewrite (mutationByIdsEach_all policy findByIds _ rp w user Hu Hv Ha). apply Hbase.
  - intros w' Hs Ha Hf.
    apply checkIfCanWriteSelf_intersect in Hs. apply not_intersect_false in Ha.
    rewrite (mutationByIdsEach_self_fetch policy findByIds _ rp w user a [] [] [] w'
               Hu Hv Ha Hs Hargs Hrs eq_refl Hf).
    rewrite bool_decide_eq_true_2 by constructor. apply Hbase.
Qed.

Lemma update_each_field_empty_batch_witness :
  let publish := fun (trigger : string) (record : value) (docs : gmap Z value) => docs in
  let findByIds : Resolver (gmap Z value) := fun rp docs => (inr (VArr []), docs) in
  let rp := request (VObj {[ "records" := VArr [] ]}) (claim 7 ["admin"]) in
  mutationByIdsEach readme_policy findByIds
    (wrapResolverWithSubscription publish (updateByIdEach "Item" collection [] None)
       Update "Item") rp two_docs
  = (inl (Error (msg_records_required "Item")), two_docs).
Proof.
  intros publish findByIds rp.
  refine (proj1 (update_each_field_empty_batch publish "Item" collection [] None findByIds
                   "Item" readme_policy _ rp two_docs (claim 7 ["admin"])
                   {[ "records" := VArr [] ]} eq_refl eq_refl eq_refl eq_refl eq_refl) _).
  apply checkIfCanWriteAll_intersect. reflexivity.
Defined.

(** ** The field descriptions of [getSchema.ts] *)

Lemma slice_required (s : string) :
  slice_init (s +:+ "!") = s /\ slice_last (s +:+ "!") = "!".
Proof.
  induction s as [|c s [IHi IHl]]; [by split|].
  simpl. destruct (s +:+ "!") eqn:E.
  - destruct s; discriminate.
  - by rewrite IHi, IHl.
Qed.

Lemma includes_elem (l : list string) (s : string) : includes l s = true <-> s ∈ l.
Proof.
  unfold includes. rewrite existsb_exists. split.
  - intros (x & Hin & Heq). apply String.eqb_eq in Heq. subst x.
    by apply list_elem_of_In.
  - intros Hin. exists s. split; [by apply list_elem_of_In | apply String.eqb_refl].
Qed.

Lemma basicRequiredTypes_are_required (type : string) :
  type ∈ basicRequiredTypes <-> exists basic, basic ∈ basicTypes /\ type = basic +:+ "!".
Proof.
  unfold basicRequiredTypes, basicTypes. split.
  - intros H. rewrite !elem_of_cons, elem_of_nil in H.
    destruct H as [-> | [-> | [-> | [-> | [-> | []]]]]];
      [exists "Boolean" | exists "Float" | exists "Int" | exists "MongoID" | exists "String"];
      (split; [repeat constructor | reflexivity]).
  - intros (basic & H & ->). rewrite !elem_of_cons, elem_of_nil in H.
    destruct H as [-> | [-> | [-> | [-> | [-> | []]]]]]; simpl; repeat constructor.
Qed.

Lemma basic_not_required (type : string) :
  type ∈ basicTypes -> includes basicRequiredTypes type = false.
Proof.
  unfold basicTypes. intros H. rewrite !elem_of_cons, elem_of_nil in H.
  destruct H as [-> | [-> | [-> | [-> | [-> | []]]]]]; reflexivity.
Qed.

Lemma fields_loop_entries (typeComposer : ObjectTypeComposer) (fields : list string)
    (object object' : gmap string value) :
  fields_loop typeComposer fields object = inr object' ->
  (forall field, field ∈ fields ->
     exists entry, field_entry typeComposer field = inr entry
                   /\ object' !! field = Some entry)
  /\ (forall field, field ∉ fields -> object' !! field = object !! field).
Proof.
  revert object. induction fields as [|f fields IH]; intros object; simpl.
  - intros [= <-]. split; [|done]. intros field H. by apply elem_of_nil in H.
  - unfold ebind. destruct (field_entry typeComposer f) as [e|entry] eqn:Ef; [discriminate|].
    intros H. destruct (IH _ H) as [Hin Hout]. split.
    + intros field Hfield.
      destruct (decide (field ∈ fields)) as [Hrest|Hrest]; [by apply Hin|].
      apply elem_of_cons in Hfield as [-> | Hfield]; [|contradiction].
      exists entry. split; [assumption|]. by rewrite (Hout f Hrest), lookup_insert_eq.
    + intros field Hfield. apply not_elem_of_cons in Hfield as [Hne Hrest].
      by rewrite (Hout field Hrest), lookup_insert_ne.
Qed.

(** X18: when [getFieldsFromTypeComposer] returns, the object it returns has
    exactly one entry per field name of the type composer.  The entry of a
    field of a basic scalar type is [{type, nullable: true}]; of a required
    basic scalar type [B!] it is [{type: B, nullable: false}], so that the
    type string of a scalar field is read back from its entry as the [type]
    followed by ["!"] when [nullable] is false; the entry of any other field
    is its type name without a trailing ["!"], with no [nullable] key. *)
Theorem schema_fields_described (typeComposer : ObjectTypeComposer)
    (object : gmap string value) :
  getFieldsFromTypeComposer typeComposer = inr (VObj object) ->
  (forall field, field ∉ getFieldNames typeComposer -> object !! field = None)
  /\ (forall field, field ∈ getFieldNames typeComposer ->
      let type := getFieldType typeComposer field in
      (type ∈ basicTypes ->
         object !! field
         = Some (VObj (<[ "type" := VStr type ]> {[ "nullable" := VBool true ]})))
      /\ (forall basic, basic ∈ basicTypes -> type = basic +:+ "!" ->
            object !! field
            = Some (VObj (<[ "type" := VStr basic ]> {[ "nullable" := VBool false ]})))
      /\ (type ∉ basicTypes -> type ∉ basicRequiredTypes ->
            (forall other, type = other +:+ "!" ->
               object !! field = Some (VObj {[ "type" := VStr other ]}))
            /\ (slice_last type <> "!" ->
               object !! field = Some (VObj {[ "type" := VStr type ]})))).
Proof.
  unfold getFieldsFromTypeComposer, ebind.
  destruct (fields_loop typeComposer (getFieldNames typeComposer) ∅) as [e|o] eqn:E;
    [discriminate|].
  intros [= <-]. destruct (fields_loop_entries _ _ _ _ E) as [Hin Hout]. split.
  - intros field H. by rewrite (Hout field H), lookup_empty.
  - intros field H. set (type := getFieldType typeComposer field).
    destruct (Hin field H) as (entry & Hentry & ->).
    unfold field_entry in Hentry. fold type in Hentry. repeat split.
    + intros Hb. apply includes_elem in Hb. rewrite Hb in Hentry. congruence.
    + intros basic Hb Ht.
      assert (Hreq : includes basicRequiredTypes type = true).
      { apply includes_elem, basicRequiredTypes_are_required. eauto. }
      assert (Hnb : includes basicTypes type = false).
      { apply Bool.not_true_is_false. intros Hy. apply includes_elem in Hy.
        apply basic_not_required in Hy. congruence. }
      rewrite Hnb, Hreq, Ht in Hentry.
      rewrite (proj1 (slice_required basic)) in Hentry. congruence.
    + intros other Ht.
      assert (Hnb : includes basicTypes type = false)
        by (apply Bool.not_true_is_false; by rewrite includes_elem).
      assert (Hnr : includes basicRequiredTypes type = false)
        by (apply Bool.not_true_is_false; by rewrite includes_elem).
      rewrite Hnb, Hnr, Ht in Hentry.
      destruct (slice_required other) as [Hi Hl]. rewrite Hi, Hl in Hentry. simpl in Hentry.
      unfold ebind in Hentry. destruct (getFieldOTC typeComposer field); congruence.
    + intros Hlast.
      assert (Hnb : includes basicTypes type = false)
        by (apply Bool.not_true_is_false; by rewrite includes_elem).
      assert (Hnr : includes basicRequiredTypes type = false)
        by (apply Bool.not_true_is_false; by rewrite includes_elem).
      rewrite Hnb, Hnr in Hentry.
      destruct (String.eqb_spec (slice_last type) "!") as [Heq|_]; [contradiction|].
      unfold ebind in Hentry. destruct (getFieldOTC typeComposer field); congruence.
Qed.

Lemma schema_fields_described_witness :
  let typeComposer :=
    {| getFieldNames := ["_id"; "title"; "author"];
       getFieldType := fun field =>
         if String.eqb field "_id" then "MongoID!"
         else if String.eqb field "title" then "String"
         else "Author!";
       getFieldOTC := fun _ => inr tt |} in
  let object : gmap string value :=
    <[ "_id" := VObj (<[ "type" := VStr "MongoID" ]> {[ "nullable" := VBool false ]}) ]>
    (<[ "title" := VObj (<[ "type" := VStr "String" ]> {[ "nullable" := VBool true ]}) ]>
     {[ "author" := VObj {[ "type" := VStr "Author" ]} ]}) in
  object !! "comments" = None.
Proof.
  intros typeComposer object.
  apply (proj1 (schema_fields_described typeComposer object eq_refl) "comments").
  intros H. repeat (apply elem_of_cons in H as [H | H]; [discriminate|]).
  by apply elem_of_nil in H.
Defined.

(** X19: [getFieldsFromTypeComposer] asks for the object type composer of
    every field that is not of a basic scalar type, although it makes no use
    of it: the first such field for which [getFieldOTC] raises makes the
    whole call fail with that error, and no object is returned; when it
    raises for no such field, the call returns. *)
Theorem schema_fields_failure (typeComposer : ObjectTypeComposer) :
  let scalar := fun field =>
    includes basicTypes (getFieldType typeComposer field)
    || includes basicRequiredTypes (getFieldType typeComposer field) in
  (forall (before after : list string) (field : string) (e : exn),
      getFieldNames typeComposer = before ++ field :: after ->
      Forall (fun f => scalar f = true \/ getFieldOTC typeComposer f = inr tt) before ->
      scalar field = false ->
      getFieldOTC typeComposer field = inl e ->
      getFieldsFromTypeComposer typeComposer = inl e)
  /\ (Forall (fun f => scalar f = true \/ getFieldOTC typeComposer f = inr tt)
             (getFieldNames typeComposer) ->
      exists object, getFieldsFromTypeComposer typeComposer = inr (VObj object)).
Proof.
  intros scalar.
  assert (Hentry : forall f, scalar f = true \/ getFieldOTC typeComposer f = inr tt ->
                             exists entry, field_entry typeComposer f = inr entry).
  { intros f Hf. unfold field_entry. unfold scalar in Hf.
    destruct (includes basicTypes (getFieldType typeComposer f)); [eauto|].
    destruct (includes basicRequiredTypes (getFieldType typeComposer f)); [eauto|].
    destruct Hf as [Hf | Hf]; [discriminate|]. rewrite Hf. simpl. eauto. }
  split.
  - intros before after field e Hnames Hbefore Hscalar Hraise.
    unfold getFieldsFromTypeComposer. rewrite Hnames. clear Hnames.
    generalize (∅ : gmap string value) as object.
    induction Hbefore as [|f before Hf _ IH]; intros object; simpl.
    + unfold field_entry. unfold scalar in Hscalar.
      apply Bool.orb_false_iff in Hscalar as [-> ->]. by rewrite Hraise.
    + destruct (Hentry f Hf) as (entry & ->). simpl. apply IH.
  - intros Hall. unfold getFieldsFromTypeComposer.
    generalize (∅ : gmap string value) as object.
    induction Hall as [|f fields Hf _ IH]; intros object; simpl; [eauto|].
    destruct (Hentry f Hf) as (entry & ->). simpl. apply IH.
Qed.

Lemma schema_fields_failure_witness :
  let typeComposer :=
    {| getFieldNames := ["_id"; "tags"; "title"];
       getFieldType := fun field =>
         if String.eqb field "_id" then "MongoID!"
         else if String.eqb field "title" then "String"
         else "[String]";
       getFieldOTC := fun _ => inl (Error "not an object type") |} in
  getFieldsFromTypeComposer typeComposer = inl (Error "not an object type").
Proof.
  intros typeComposer.
  apply (proj1 (schema_fields_failure typeComposer) ["_id"] ["title"] "tags").
  - reflexivity.
  - constructor; [left; reflexivity | constructor].
  - reflexivity.
  - reflexivity.
Defined.

(** ** The [Filtered] decorator and the filter operators *)

Lemma decorate_array (t : gmap string value) (previous propertyKeys : list string) :
  t !! "_filteredProperties" = Some (VArr (VStr <$> previous)) ->
  decorate (VObj t) propertyKeys
  = inr (VObj (<["_filteredProperties" := VArr (VStr <$> previous ++ propertyKeys)]> t)).
Proof.
  revert t previous. induction propertyKeys as [|k ks IH]; intros t previous Ht.
  - simpl. rewrite app_nil_r. by rewrite insert_id.
  - simpl. unfold Filtered, read, ebind. simpl. rewrite Ht. simpl.
    rewrite (IH _ (previous ++ [k])).
    + rewrite insert_insert_eq, <- app_assoc. reflexivity.
    + by rewrite lookup_insert_eq, fmap_app.
Qed.

Lemma filter_operators_fold (properties : list string) (operators : gmap string value)
    (k : string) :
  foldl (fun ops property => <[property := VBool true]> ops) operators properties !! k
  = if bool_decide (k ∈ properties) then Some (VBool true) else operators !! k.
Proof.
  revert operators. induction properties as [|p properties IH]; intros operators; simpl.
  - reflexivity.
  - rewrite IH. destruct (bool_decide_reflect (k ∈ properties)) as [Hin|Hnin].
    + rewrite bool_decide_eq_true_2 by (by right). reflexivity.
    + destruct (decide (k = p)) as [->|Hne].
      * rewrite bool_decide_eq_true_2 by (by left). by rewrite lookup_insert_eq.
      * rewrite bool_decide_eq_false_2 by (by intros [?|?]%elem_of_cons).
        by rewrite lookup_insert_ne.
Qed.

(** X20: the [Filtered] decorators of a class accumulate: applied for the
    property keys [k1 .. kn] to a prototype that has no
    [_filteredProperties] yet, they leave [_filteredProperties] equal to
    [[k1, .., kn]], in decoration order, and touch nothing else; applied to
    one that already has a list, they append to it.  The filter operators
    built from such a list are [_ids] and the listed properties, each
    mapped to [true], and nothing else. *)
Theorem filtered_properties_accumulate (t : gmap string value)
    (previous propertyKeys : list string) :
  (t !! "_filteredProperties" = None -> propertyKeys <> [] ->
     decorate (VObj t) propertyKeys
     = inr (VObj (<["_filteredProperties" := VArr (VStr <$> propertyKeys)]> t)))
  /\ (t !! "_filteredProperties" = Some (VArr (VStr <$> previous)) ->
      decorate (VObj t) propertyKeys
      = inr (VObj (<["_filteredProperties" := VArr (VStr <$> previous ++ propertyKeys)]> t)))
  /\ (forall k,
        filter_operators (Some propertyKeys) !! k
        = if bool_decide (k = "_ids" \/ k ∈ propertyKeys) then Some (VBool true) else None)
  /\ (forall k,
        filter_operators None !! k
        = if bool_decide (k = "_ids") then Some (VBool true) else None).
Proof.
  split; [|split; [|split]].
  - intros Hnone Hne. destruct propertyKeys as [|k ks]; [contradiction|].
    simpl. unfold Filtered, read, ebind. simpl. rewrite Hnone. simpl.
    rewrite (decorate_array _ [k] ks) by (by rewrite lookup_insert_eq).
    by rewrite insert_insert_eq.
  - apply decorate_array.
  - intros k. unfold filter_operators. rewrite filter_operators_fold.
    destruct (bool_decide_reflect (k ∈ propertyKeys)) as [Hin|Hnin].
    + rewrite bool_decide_eq_true_2 by (by right). reflexivity.
    + destruct (decide (k = "_ids")) as [->|Hne].
      * rewrite bool_decide_eq_true_2 by (by left). reflexivity.
      * rewrite bool_decide_eq_false_2 by (by intros [?|?]).
        by rewrite lookup_singleton_ne.
  - intros k. unfold filter_operators. destruct (decide (k = "_ids")) as [->|Hne].
    + rewrite bool_decide_eq_true_2 by reflexivity. reflexivity.
    + rewrite bool_decide_eq_false_2 by assumption. by rewrite lookup_singleton_ne.
Qed.

Lemma filtered_properties_accumulate_witness :
  decorate (VObj {[ "name" := VStr "Item" ]}) ["title"; "price"]
  = inr (VObj (<[ "_filteredProperties" := VArr [VStr "title"; VStr "price"] ]>
                 {[ "name" := VStr "Item" ]})).
Proof.
  apply (proj1 (filtered_properties_accumulate {[ "name" := VStr "Item" ]} []
                  ["title"; "price"])).
  - reflexivity.
  - discriminate.
Defined.

(** ** More on self-scoping *)

(** X21: under a valid claim with the self permission and not the all
    permission, a filter-based query or mutation that comes without a
    filter (absent, or [null]) reaches the delegate with the filter
    [{ [owner field]: subject id }] and nothing else in it, the other
    arguments, the projection and the context being as they came. *)
Theorem owner_filter_created {W : Type} (resolver find : Resolver W)
    (policy : EntityAuthConfig) (wrapped : Resolver (W * list ResolveParams))
    (rp : ResolveParams) (w : W) (user : value) (a : gmap string value) :
  read (context rp) "user" = inr user ->
  isValidJwtPayload user = true ->
  (authQueryWithFilterResolver (spy resolver) (Some policy) = inr wrapped
   /\ roles_intersect user (readSelf policy) /\ ~ roles_intersect user (readAll policy))
  \/ (wrapMutationWithFilterAuth (spy resolver) (Some policy) (unwatched find) = inr wrapped
      /\ roles_intersect user (writeSelf policy) /\ ~ roles_intersect user (writeAll policy)) ->
  args rp = VObj a ->
  truthy (default VUndefined (a !! "filter")) = false ->
  let rp' := with_args rp
               (VObj (<["filter" := VObj {[ ownerKey policy := prop user "id" ]}]> a)) in
  wrapped rp (w, []) = (fst (resolver rp' w), (snd (resolver rp' w), [rp'])).
Proof.
  intros Hu Hv H Ha Hf rp'.
  assert (Hw : wrapped rp (w, [])
               = match inject_owner_filter policy (prop user "id") rp with
                 | inl e => (inl e, (w, []))
                 | inr rq' => spy resolver rq' (w, [])
                 end).
  { destruct H as [(H & Hs & Hall) | (H & Hs & Hall)].
    - apply authQueryWithFilterResolver_built in H as [_ ->].
      apply checkIfCanReadSelf_intersect in Hs. apply not_intersect_false in Hall.
      by apply queryWithFilter_self.
    - apply wrapMutationWithFilterAuth_built in H as [_ ->].
      apply checkIfCanWriteSelf_intersect in Hs. apply not_intersect_false in Hall.
      by apply mutationWithFilterAuth_self. }
  rewrite Hw, (inject_owner_filter_none policy _ rp a Ha Hf). apply spy_call.
Qed.

Lemma owner_filter_created_witness :
  let rp := request (VObj {[ "limit" := VNum 10 ]}) (claim 7 ["user"]) in
  let rp' := request (VObj (<[ "filter" := VObj {[ "ownerId" := VNum 7 ]} ]>
                              {[ "limit" := VNum 10 ]})) (claim 7 ["user"]) in
  queryWithFilter self_policy (spy echo) rp (tt, []) = (inr (args rp'), (tt, [rp'])).
Proof.
  intros rp rp'.
  refine (owner_filter_created echo echo self_policy _ rp tt (claim 7 ["user"])
            {[ "limit" := VNum 10 ]} eq_refl eq_refl
            (or_introl (conj eq_refl (conj _ _))) eq_refl eq_refl).
  - apply checkIfCanReadSelf_intersect. reflexivity.
  - rewrite <- checkIfCanReadAll_intersect. vm_compute. discriminate.
Defined.



